(** * silly-wave-function: a particle in a box, by truncated Fourier expansion

    Shallow embedding of [src/silly-wave-function.py] and the properties
    its specification states about it.

    Modelling conventions.
    - Python floats (and numpy float64 / complex128 values) are read as
      exact real and complex numbers: [R] and pairs of [R].  Rounding,
      overflow and NaN are outside this model; every statement below is a
      statement "in exact arithmetic".
    - Python integers (the mode index [n], [Nmax]) are [Z].
    - numpy arrays are lists; an arithmetic operation on an array is the
      elementwise [map].
    - A division whose divisor depends on the argument of the function
      ([2 - n] and [2 + n] in [c_n]) is a checked division: it yields
      [None] when the divisor is zero.  Divisions by the module constants
      ([a], [2*m*a**2], ...) are plain divisions. *)

From Stdlib Require Import Reals Machin ZArith List Lra Lia Psatz.
Import ListNotations.

Local Open Scope R_scope.

(** ** A small error monad for the checked divisions *)

Definition bind {A B : Type} (c : option A) (k : A -> option B) : option B :=
  match c with
  | Some v => k v
  | None => None
  end.

Notation "x <- c ;; k" := (bind c (fun x => k))
  (at level 61, c at next level, right associativity).

Definition checked_div (p : R) (q : Z) : option R :=
  if (q =? 0)%Z then None else Some (p / IZR q).

(** ** Complex numbers, as numpy's complex128 in exact arithmetic *)

Module Cplx.

Definition C : Type := (R * R)%type.

Definition Re (z : C) : R := fst z.
Definition Im (z : C) : R := snd z.

Definition C0 : C := (0, 0).
Definition RtoC (r : R) : C := (r, 0).
(** The literal [1j]. *)
Definition Ci : C := (0, 1).

Definition Cplus (z w : C) : C := (Re z + Re w, Im z + Im w).
Definition Copp (z : C) : C := (- Re z, - Im z).
Definition Cmult (z w : C) : C :=
  (Re z * Re w - Im z * Im w, Re z * Im w + Im z * Re w).
(** Division of a complex number by a real one. *)
Definition Cdivr (z : C) (r : R) : C := (Re z / r, Im z / r).
(** [np.exp] on a complex argument. *)
Definition Cexp (z : C) : C := (exp (Re z) * cos (Im z), exp (Re z) * sin (Im z)).
(** [np.abs] on a complex argument. *)
Definition Cabs (z : C) : R := sqrt (Re z * Re z + Im z * Im z).

End Cplx.
Import Cplx.

(** ** Module-level constants of the script *)

(** Box length in meters, [a = 1e-10]. *)
Definition a : R := 1e-10.
(** Electron mass in kg, [m = 9.10938356e-31]. *)
Definition m : R := 9.10938356e-31.
(** Reduced Planck constant in J*s, [hbar = 1.054571817e-34]. *)
Definition hbar : R := 1.054571817e-34.

(** [tau = 2 * m * a**2 / (np.pi**2 * hbar)] *)
Definition tau : R := 2 * m * a ^ 2 / (PI ^ 2 * hbar).
(** [t_max = 10 * tau] *)
Definition t_max : R := 10 * tau.

(** [np.linspace(start, stop, num)]: [num] evenly spaced samples, the
    [i]-th one being [start + i * ((stop - start) / (num - 1))]. *)
Definition linspace (start stop : R) (num : nat) : list R :=
  map (fun i => start + INR i * ((stop - start) / INR (num - 1))) (seq 0 num).

(** [x = np.linspace(0, a, 1000)] *)
Definition x : list R := linspace 0 a 1000.

(** [Nmax = 50] *)
Definition Nmax : Z := 50.

(** Python's [range(lo, hi)]. *)
Definition range (lo hi : Z) : list Z :=
  map (fun i => (lo + Z.of_nat i)%Z) (seq 0 (Z.to_nat (hi - lo))).

(** ** The coefficient generator *)

(** [def c_n(n)]: the branch on [n == 2], and the closed form with its
    two divisions otherwise. *)
Definition c_n (n : Z) : option R :=
  if (n =? 2)%Z then
    Some (sqrt 2 / 2)
  else
    q1 <- checked_div (sin (IZR (2 - n) * PI / 2)) (2 - n) ;;
    q2 <- checked_div (sin (IZR (2 + n) * PI / 2)) (2 + n) ;;
    Some (sqrt 2 / PI * (q1 - q2)).

(** ** The wavefunction evaluator *)

(** [np.zeros_like(x, dtype=complex)] *)
Definition zeros_like (xs : list R) : list C := map (fun _ => C0) xs.

(** [phase = np.exp(-1j * n**2 * np.pi**2 * hbar * t / (2 * m * a**2))] *)
Definition phase (n : Z) (t : R) : C :=
  Cexp (Cdivr
          (Cmult (Cmult (Cmult (Cmult (Copp Ci) (RtoC (IZR (n ^ 2))))
                               (RtoC (PI ^ 2)))
                        (RtoC hbar))
                 (RtoC t))
          (2 * m * a ^ 2)).

(** The array added to [psi_val] in one pass of the loop:
    [c_n(n) * np.sqrt(2/a) * np.sin(n * np.pi * x / a) * phase]. *)
Definition term (c : R) (n : Z) (t : R) (xs : list R) : list C :=
  map (fun xi => Cmult (RtoC (c * sqrt (2 / a) * sin (IZR n * PI * xi / a)))
                       (phase n t)) xs.

(** Elementwise [+=] on two arrays of the same shape. *)
Fixpoint add_arrays (u v : list C) : list C :=
  match u, v with
  | z :: u', w :: v' => Cplus z w :: add_arrays u' v'
  | _, _ => []
  end.

(** The body of the [for n in range(1, Nmax+1)] loop. *)
Definition psi_body (xs : list R) (t : R) (psi_val : list C) (n : Z)
  : option (list C) :=
  c <- c_n n ;;
  Some (add_arrays psi_val (term c n t xs)).

(** The loop, threading [psi_val] and the error state. *)
Fixpoint psi_loop (xs : list R) (t : R) (ns : list Z) (psi_val : list C)
  : option (list C) :=
  match ns with
  | [] => Some psi_val
  | n :: ns' =>
      psi_val' <- psi_body xs t psi_val n ;;
      psi_loop xs t ns' psi_val'
  end.

(** [def psi(x, t)] *)
Definition psi (xs : list R) (t : R) : option (list C) :=
  psi_loop xs t (range 1 (Nmax + 1)) (zeros_like xs).

(** ** The animation callbacks *)

(** The text of the time annotation: [init] writes the fixed string
    ['t = 0 s'], [update] the formatted [f't = {t:.2e} s']. *)
Inductive label : Type :=
| LabelInit : label
| LabelTime : R -> label.

(** The two artists the callbacks mutate: the curve's y-data and the
    time annotation. *)
Record plot : Type := mkPlot {
  ydata : list R;
  time_text : option label
}.

(** [np.abs(z)**2] on an array. *)
Definition abs_sq (zs : list C) : list R := map (fun z => Cabs z ^ 2) zs.

(** [def init()] *)
Definition init (p : plot) : option plot :=
  zs <- psi x 0 ;;
  Some {| ydata := abs_sq zs; time_text := Some LabelInit |}.

(** [def update(t)] *)
Definition update (t : R) (p : plot) : option plot :=
  zs <- psi x t ;;
  Some {| ydata := abs_sq zs; time_text := Some (LabelTime t) |}.

(** [frames = np.linspace(0, t_max, 200)] *)
Definition frames : list R := linspace 0 t_max 200.

(** ** The closed forms the specification names *)

(** The closed-form trigonometric expression of the coefficient, at a
    real index:
    [(sqrt 2 / pi) * (sin((2-n) pi/2)/(2-n) - sin((2+n) pi/2)/(2+n))]. *)
Definition closed_form (n : R) : R :=
  sqrt 2 / PI *
  (sin ((2 - n) * PI / 2) / (2 - n) - sin ((2 + n) * PI / 2) / (2 + n)).

(** The value of [c_n] as a total function of the mode index. *)
Definition coef (n : Z) : R :=
  if (n =? 2)%Z then sqrt 2 / 2 else closed_form (IZR n).

(** [sum_{n=1}^{N} f n] over the complex numbers, the first term
    innermost. *)
Fixpoint Csum (f : Z -> C) (N : nat) : C :=
  match N with
  | O => C0
  | S k => Cplus (Csum f k) (f (Z.of_nat (S k)))
  end.

(** The same over the reals. *)
Fixpoint Rsum (f : Z -> R) (N : nat) : R :=
  match N with
  | O => 0
  | S k => Rsum f k + f (Z.of_nat (S k))
  end.

(** [exp(-i theta)] for a real angle. *)
Definition expmi (theta : R) : C := Cexp (Cmult (Copp Ci) (RtoC theta)).

(** The eigenfunction [phi_n(x) = sqrt(2/a) sin(n pi x / a)]. *)
Definition phi (n : Z) (x0 : R) : R := sqrt (2 / a) * sin (IZR n * PI * x0 / a).

(** The energy as the specification (and the docstring of [psi]) writes
    it: [E_n = n^2 pi^2 hbar / (2 m a^2)]. *)
Definition E_n_spec (n : Z) : R := IZR n ^ 2 * PI ^ 2 * hbar / (2 * m * a ^ 2).

(** The expansion as the specification writes it:
    [sum_{n=1}^{Nmax} c_n phi_n(x) exp(-i E_n t / hbar)] with the energy
    above. *)
Definition psi_spec (x0 t : R) : C :=
  Csum (fun n => Cmult (RtoC (coef n * phi n x0))
                       (expmi (E_n_spec n * t / hbar)))
       (Z.to_nat Nmax).

(** The energy of the [n]-th level of the box,
    [E_n = n^2 pi^2 hbar^2 / (2 m a^2)]. *)
Definition E_n (n : Z) : R := IZR n ^ 2 * PI ^ 2 * hbar ^ 2 / (2 * m * a ^ 2).

(** The expansion with that energy. *)
Definition psi_sum (x0 t : R) : C :=
  Csum (fun n => Cmult (RtoC (coef n * phi n x0))
                       (expmi (E_n n * t / hbar)))
       (Z.to_nat Nmax).

(** The period shared by all the phases of the expansion. *)
Definition fundamental_period : R := 2 * PI * tau.

(** A time, far below the scale of the animation, at which the phases
    of [psi_spec] are [(-1)^n] while those the code computes have hardly
    left [1]: [t_sep = 2 m a^2 / pi]. *)
Definition t_sep : R := 2 * m * a ^ 2 / PI.

(** The common factor of the summands, [(sqrt 2 / pi) sqrt(2/a)]. *)
Definition amp : R := sqrt 2 / PI * sqrt (2 / a).

(** The real part of the [n]-th summand the code computes minus that of
    the [n]-th summand of [psi_spec], at the grid point [a/3] and the
    time [t_sep]. *)
Definition gap (n : Z) : R :=
  coef n * phi n (a / 3)
  * (cos (E_n n * t_sep / hbar) - cos (E_n_spec n * t_sep / hbar)).

(** [4 / (r^2 - 4) = tele r - tele (r + 1)]. *)
Definition tele (r : R) : R := / (r - 2) + / (r - 1) + / r + / (r + 1).

(** The integral over the grid that the specification speaks of, by the
    trapezoid rule on the sampled curve, as [np.trapz(y, x)] computes
    it: the sum of [(x[i+1] - x[i]) * (y[i] + y[i+1]) / 2]. *)
Fixpoint trapz (ys xs : list R) : R :=
  match ys, xs with
  | y0 :: ys', x0 :: xs' =>
      match ys', xs' with
      | y1 :: _, x1 :: _ => (x1 - x0) * (y0 + y1) / 2 + trapz ys' xs'
      | _, _ => 0
      end
  | _, _ => 0
  end.

(** The total probability at time [t]: the integral of
    [np.abs(psi(x, t))**2] over the grid. *)
Definition total_probability (t : R) : option R :=
  zs <- psi x t ;; Some (trapz (abs_sq zs) x).

(** [pi^2] times the square of the [n]-th coefficient, the second mode
    apart: a rational number. *)
Definition weight (n : Z) : R :=
  if (n =? 2)%Z then 0
  else if Z.even n then 0
  else 32 / ((IZR n * IZR n - 4) * (IZR n * IZR n - 4)).

(** [np.conj]. *)
Definition Cconj (z : C) : C := (Re z, - Im z).

(** [y0 = np.abs(psi(x, 0))**2], the curve drawn when the plot is set
    up. *)
Definition y0 : option (list R) := zs <- psi x 0 ;; Some (abs_sq zs).

(** [arr.max()]: the largest element; numpy raises [ValueError] on an
    empty array. *)
Definition array_max (ys : list R) : option R :=
  match ys with
  | [] => None
  | y :: ys' => Some (fold_left Rmax ys' y)
  end.

(** [ax.set_ylim(0, y0.max() * 1.4)]: the two limits. *)
Definition ylim : option (R * R) :=
  ys <- y0 ;; top <- array_max ys ;; Some (0, top * 1.4).

(** Whether two mode indices are neighbours: [1] when they differ by
    one, [0] otherwise. *)
Definition adjacent (n k : Z) : R :=
  (if (n - k =? 1)%Z then 1 else 0) + (if (k - n =? 1)%Z then 1 else 0).

(** * Properties of the constants *)

Lemma a_pos : 0 < a.
Proof. unfold a; lra. Qed.

Lemma m_pos : 0 < m.
Proof. unfold m; lra. Qed.

Lemma hbar_pos : 0 < hbar.
Proof. unfold hbar; lra. Qed.

Lemma denom_pos : 0 < 2 * m * a ^ 2.
Proof.
  apply Rmult_lt_0_compat; [generalize m_pos; lra |].
  apply pow_lt, a_pos.
Qed.

Lemma PI_gt_3 : 3 < PI.
Proof. generalize PI2_3_2; lra. Qed.

Lemma sqrt2_pos : 0 < sqrt 2.
Proof. apply sqrt_lt_R0; lra. Qed.

Lemma sqrt2_sq : sqrt 2 * sqrt 2 = 2.
Proof. apply sqrt_sqrt; lra. Qed.

Lemma sqrt2_lt_2 : sqrt 2 < 2.
Proof. generalize sqrt2_pos sqrt2_sq; nra. Qed.

(** * The coefficient generator *)

Section Coefficient.

Lemma Some_inj {A : Type} (u v : A) : Some u = Some v -> u = v.
Proof. intros E. injection E as E. exact E. Qed.

Lemma checked_div_nonzero (p : R) (q : Z) :
  q <> 0%Z -> checked_div p q = Some (p / IZR q).
Proof.
  intros Hq. unfold checked_div.
  destruct (Z.eqb_spec q 0) as [E | _]; [contradiction | reflexivity].
Qed.

Lemma checked_div_zero (p : R) : checked_div p 0 = None.
Proof. reflexivity. Qed.

(** Away from [2] and [-2] the general branch of [c_n] is the closed
    form. *)
Lemma c_n_general (n : Z) :
  n <> 2%Z -> n <> (-2)%Z -> c_n n = Some (closed_form (IZR n)).
Proof.
  intros H2 Hm2. unfold c_n.
  destruct (Z.eqb_spec n 2) as [E | _]; [contradiction |].
  rewrite !checked_div_nonzero by lia. cbn [bind].
  unfold closed_form. rewrite minus_IZR, plus_IZR. reflexivity.
Qed.

(** On the mode indices of the expansion [c_n] is total and equals
    [coef]. *)
Lemma c_n_coef (n : Z) : (1 <= n)%Z -> c_n n = Some (coef n).
Proof.
  intros Hn. unfold coef.
  destruct (Z.eqb_spec n 2) as [E | NE].
  - subst n. reflexivity.
  - apply c_n_general; lia.
Qed.

(** The check is not idle: at [n = -2] the second division is by zero. *)
Lemma c_n_minus_2 : c_n (-2) = None.
Proof.
  unfold c_n. cbn [Z.eqb Z.sub Z.add Z.opp Z.pos_sub Z.succ_double Z.pred_double
                   Z.double Pos.pred_double].
  rewrite checked_div_nonzero by lia. reflexivity.
Qed.

(** A sine at an integer multiple of [pi] vanishes. *)
Lemma sin_Z_PI (k : Z) : sin (IZR k * PI) = 0.
Proof. apply sin_eq_0_1. exists k. reflexivity. Qed.

Lemma sin_even_half_PI (k : Z) : sin (IZR (2 * k) * PI / 2) = 0.
Proof.
  replace (IZR (2 * k) * PI / 2) with (IZR k * PI)
    by (rewrite mult_IZR; field).
  apply sin_Z_PI.
Qed.

(** The closed form vanishes at every even index. *)
Lemma closed_form_even (k : Z) : closed_form (IZR (2 * k)) = 0.
Proof.
  unfold closed_form.
  replace ((2 - IZR (2 * k)) * PI / 2) with (IZR (2 * (1 - k)) * PI / 2)
    by (rewrite !mult_IZR, minus_IZR; field).
  replace ((2 + IZR (2 * k)) * PI / 2) with (IZR (2 * (1 + k)) * PI / 2)
    by (rewrite !mult_IZR, plus_IZR; field).
  rewrite !sin_even_half_PI. unfold Rdiv. ring.
Qed.

(** The two sines of the closed form are, up to sign, [sin (n pi / 2)]. *)
Lemma sin_two_minus (n : R) : sin ((2 - n) * PI / 2) = sin (n * PI / 2).
Proof.
  replace ((2 - n) * PI / 2) with (PI - n * PI / 2) by field.
  apply sin_PI_x.
Qed.

Lemma sin_two_plus (n : R) : sin ((2 + n) * PI / 2) = - sin (n * PI / 2).
Proof.
  replace ((2 + n) * PI / 2) with (n * PI / 2 + PI) by field.
  apply neg_sin.
Qed.

(** The closed form with its two fractions brought together. *)
Lemma closed_form_single (n : R) :
  n <> 2 -> n <> -2 ->
  closed_form n = sqrt 2 / PI * (sin (n * PI / 2) * (4 / (4 - n * n))).
Proof.
  intros H2 Hm2. unfold closed_form.
  rewrite sin_two_minus, sin_two_plus.
  assert (HPI : PI <> 0) by (generalize PI_RGT_0; lra).
  assert (H4 : 4 - n * n <> 0) by nra.
  field. repeat split; lra.
Qed.

Lemma sin_bounds_nonneg (h : R) : 0 <= h -> - h <= sin h <= h.
Proof.
  intros Hh.
  destruct (Req_dec h 0) as [-> | Hnz]; [rewrite sin_0; lra |].
  assert (Hs : sin h < h) by (apply sin_lt_x; lra).
  split; [| lra].
  destruct (Rle_lt_dec h 1) as [Hle | Hgt].
  - assert (0 <= sin h); [| lra].
    apply sin_ge_0; generalize PI_gt_3; lra.
  - generalize (SIN_bound h); lra.
Qed.

Lemma Rabs_sin_le (h : R) : Rabs (sin h) <= Rabs h.
Proof.
  destruct (Rle_lt_dec 0 h) as [Hpos | Hneg].
  - generalize (sin_bounds_nonneg h Hpos); intros Hb.
    rewrite (Rabs_pos_eq h) by lra. apply Rabs_le; lra.
  - assert (Hb : - - h <= sin (- h) <= - h) by (apply sin_bounds_nonneg; lra).
    rewrite sin_neg in Hb.
    rewrite (Rabs_left h) by lra. apply Rabs_le; lra.
Qed.

(** The closed form, written around the singular index: with [u = 2 - n]
    and [h = u pi / 2]. *)
Lemma closed_form_near_2 (n : R) :
  n <> 2 -> Rabs (n - 2) < 1 ->
  closed_form n - sqrt 2 / 2 =
  sqrt 2 / 2 * (sin ((2 - n) * PI / 2) / ((2 - n) * PI / 2) - 1)
  + sqrt 2 / PI * (sin ((2 - n) * PI / 2) / (2 + n)).
Proof.
  intros Hn Hclose.
  assert (Hb : -1 < n - 2 < 1).
  { unfold Rabs in Hclose. destruct Rcase_abs; lra. }
  unfold closed_form.
  replace (sin ((2 + n) * PI / 2)) with (- sin ((2 - n) * PI / 2)).
  2:{ rewrite sin_two_minus, sin_two_plus. reflexivity. }
  assert (HPI : PI <> 0) by (generalize PI_RGT_0; lra).
  field. repeat split; lra.
Qed.

(** [sin h / h] tends to [1]: the derivative of the sine at the origin. *)
Lemma sinc_limit (eps : R) :
  0 < eps ->
  exists delta : R, 0 < delta /\
    forall h : R, h <> 0 -> Rabs h < delta -> Rabs (sin h / h - 1) < eps.
Proof.
  intros Heps.
  destruct (derivable_pt_lim_sin_0 eps Heps) as [delta Hd].
  exists delta. split; [apply cond_pos |].
  intros h Hh Hsmall. specialize (Hd h Hh Hsmall).
  rewrite Rplus_0_l, sin_0, Rminus_0_r in Hd. exact Hd.
Qed.

(** The closed form tends to [sqrt 2 / 2] at the singular index. *)
Lemma closed_form_limit :
  limit1_in closed_form (fun n => n <> 2) (sqrt 2 / 2) 2.
Proof.
  intros eps Heps.
  destruct (sinc_limit (eps / 2)) as [delta [Hdelta Hsinc]]; [lra |].
  assert (HPI := PI_gt_3). assert (HPI4 := PI_4).
  assert (Hs2 := sqrt2_pos). assert (Hs2' := sqrt2_lt_2).
  set (alp := Rmin 1 (Rmin eps (delta / 2))).
  assert (Halp1 : alp <= 1) by apply Rmin_l.
  assert (Halp2 : alp <= eps).
  { unfold alp. etransitivity; [apply Rmin_r | apply Rmin_l]. }
  assert (Halp3 : alp <= delta / 2).
  { unfold alp. etransitivity; [apply Rmin_r | apply Rmin_r]. }
  assert (Halp0 : 0 < alp).
  { unfold alp. repeat apply Rmin_glb_lt; lra. }
  exists alp. split; [lra |].
  intros n [Hn Hdist]. cbn in Hdist |- *. unfold Rdist in *.
  assert (Hclose : Rabs (n - 2) < 1) by lra.
  rewrite (closed_form_near_2 n Hn Hclose).
  set (h := (2 - n) * PI / 2). set (u := 2 - n).
  assert (Hu : Rabs u = Rabs (n - 2)).
  { unfold u. rewrite <- Rabs_Ropp. f_equal. ring. }
  assert (Hh : Rabs h = Rabs u * (PI / 2)).
  { unfold h, u. replace ((2 - n) * PI / 2) with ((2 - n) * (PI / 2)) by field.
    rewrite Rabs_mult. rewrite (Rabs_pos_eq (PI / 2)) by lra. reflexivity. }
  assert (Hh0 : h <> 0).
  { unfold h. intros E. apply Hn. nra. }
  assert (Hhsmall : Rabs h < delta).
  { rewrite Hh, Hu. nra. }
  specialize (Hsinc h Hh0 Hhsmall).
  assert (Hb : -1 < n - 2 < 1).
  { unfold Rabs in Hclose. destruct Rcase_abs; lra. }
  assert (Hsin : Rabs (sin h) <= Rabs h) by apply Rabs_sin_le.
  assert (H2n : 3 < 2 + n) by lra.
  (* first summand *)
  assert (T1 : Rabs (sqrt 2 / 2 * (sin h / h - 1)) < eps / 2).
  { rewrite Rabs_mult, (Rabs_pos_eq (sqrt 2 / 2)) by lra.
    assert (0 <= Rabs (sin h / h - 1)) by apply Rabs_pos. nra. }
  (* second summand *)
  assert (T2 : Rabs (sqrt 2 / PI * (sin h / (2 + n))) <= eps / 2).
  { unfold Rdiv at 2. rewrite !Rabs_mult.
    rewrite (Rabs_pos_eq (sqrt 2 / PI)).
    2:{ apply Rlt_le, Rdiv_lt_0_compat; lra. }
    rewrite (Rabs_pos_eq (/ (2 + n))).
    2:{ apply Rlt_le, Rinv_0_lt_compat; lra. }
    assert (Hinv : / (2 + n) <= / 3).
    { apply Rinv_le_contravar; lra. }
    assert (Hinv0 : 0 < / (2 + n)) by (apply Rinv_0_lt_compat; lra).
    assert (Hq : sqrt 2 / PI * Rabs h = sqrt 2 / 2 * Rabs u).
    { rewrite Hh. field. lra. }
    assert (Hu0 : 0 <= Rabs u) by apply Rabs_pos.
    assert (Hs0 : 0 <= Rabs (sin h)) by apply Rabs_pos.
    assert (Hq0 : 0 < sqrt 2 / PI) by (apply Rdiv_lt_0_compat; lra).
    assert (Hstep : sqrt 2 / PI * Rabs (sin h) <= sqrt 2 / 2 * Rabs u).
    { rewrite <- Hq. apply Rmult_le_compat_l; lra. }
    assert (Hu1 : Rabs u < eps) by (rewrite Hu; lra).
    rewrite <- Rmult_assoc.
    assert (Hp : 0 <= sqrt 2 / PI * Rabs (sin h)) by nra.
    assert (sqrt 2 / PI * Rabs (sin h) * / (2 + n)
            <= sqrt 2 / 2 * Rabs u * / 3).
    { apply Rmult_le_compat; [exact Hp | apply Rlt_le, Hinv0 | exact Hstep | exact Hinv]. }
    nra. }
  eapply Rle_lt_trans; [apply Rabs_triang |]. fold h. lra.
Qed.

End Coefficient.

(** * The wavefunction evaluator *)

Section Evaluator.

Lemma IZR_sq (n : Z) : IZR (n ^ 2) = IZR n ^ 2.
Proof. replace (n ^ 2)%Z with (n * n)%Z by ring. rewrite mult_IZR. ring. Qed.

Lemma expmi_eq (theta : R) : expmi theta = (cos theta, - sin theta).
Proof.
  unfold expmi, Cexp, Cmult, Copp, Ci, RtoC, Re, Im; cbn [fst snd].
  replace (- 0 * theta - - (1) * 0) with 0 by ring.
  replace (- 0 * 0 + - (1) * theta) with (- theta) by ring.
  rewrite exp_0, cos_neg, sin_neg. f_equal; ring.
Qed.

(** The angle of the phase the code computes. *)
Lemma phase_eq (n : Z) (t : R) :
  phase n t = expmi (IZR n ^ 2 * PI ^ 2 * hbar * t / (2 * m * a ^ 2)).
Proof.
  unfold phase, expmi. f_equal.
  unfold Cdivr, Cmult, Copp, Ci, RtoC, Re, Im; cbn [fst snd].
  rewrite IZR_sq.
  generalize m_pos a_pos; intros Hm Ha.
  f_equal; field; split; lra.
Qed.

Lemma phase_energy (n : Z) (t : R) : phase n t = expmi (E_n n * t / hbar).
Proof.
  rewrite phase_eq. f_equal. unfold E_n.
  generalize m_pos a_pos hbar_pos; intros Hm Ha Hh.
  field. repeat split; lra.
Qed.

Lemma range_1_succ (N : nat) :
  range 1 (Z.of_nat (S N) + 1) = range 1 (Z.of_nat N + 1) ++ [Z.of_nat (S N)].
Proof.
  unfold range.
  replace (Z.to_nat (Z.of_nat (S N) + 1 - 1)) with (S N) by lia.
  replace (Z.to_nat (Z.of_nat N + 1 - 1)) with N by lia.
  rewrite seq_S, map_app. f_equal. cbn [map]. f_equal. lia.
Qed.

Lemma psi_loop_app (xs : list R) (t : R) (l1 l2 : list Z) (acc : list C) :
  psi_loop xs t (l1 ++ l2) acc =
  (acc' <- psi_loop xs t l1 acc ;; psi_loop xs t l2 acc').
Proof.
  revert acc. induction l1 as [| n l1 IH]; intros acc; cbn [app psi_loop bind].
  - reflexivity.
  - destruct (psi_body xs t acc n) as [acc' |]; cbn [bind]; [apply IH | reflexivity].
Qed.

Lemma add_arrays_map {A : Type} (f g : A -> C) (l : list A) :
  add_arrays (map f l) (map g l) = map (fun v => Cplus (f v) (g v)) l.
Proof. induction l as [| v l IH]; cbn; [reflexivity | now rewrite IH]. Qed.

(** The summand of the expansion, as the loop body computes it. *)
Lemma term_eq (n : Z) (t : R) (xs : list R) :
  term (coef n) n t xs =
  map (fun xi => Cmult (RtoC (coef n * phi n xi)) (expmi (E_n n * t / hbar))) xs.
Proof.
  unfold term. apply map_ext. intros xi.
  rewrite phase_energy. unfold phi. do 2 f_equal. ring.
Qed.

(** After [N] passes the accumulator holds the [N]-th partial sum at
    every point. *)
Lemma psi_loop_partial_sum (xs : list R) (t : R) (N : nat) :
  psi_loop xs t (range 1 (Z.of_nat N + 1)) (zeros_like xs) =
  Some (map (fun xi =>
               Csum (fun n => Cmult (RtoC (coef n * phi n xi))
                                    (expmi (E_n n * t / hbar))) N) xs).
Proof.
  induction N as [| N IH].
  - reflexivity.
  - rewrite range_1_succ, psi_loop_app, IH. cbn [bind psi_loop].
    unfold psi_body. rewrite c_n_coef by lia. cbn [bind].
    rewrite term_eq, add_arrays_map. reflexivity.
Qed.

(** [psi] is total and returns, at every point, the truncated sum. *)
Lemma psi_eval (xs : list R) (t : R) :
  psi xs t = Some (map (fun xi => psi_sum xi t) xs).
Proof.
  unfold psi, psi_sum.
  change (Nmax + 1)%Z with (Z.of_nat (Z.to_nat Nmax) + 1)%Z.
  apply psi_loop_partial_sum.
Qed.

End Evaluator.

(** * Boundary values, periodicity and the frames *)

Section Frames.

Lemma Csum_ext (f g : Z -> C) (N : nat) :
  (forall n, (1 <= n <= Z.of_nat N)%Z -> f n = g n) -> Csum f N = Csum g N.
Proof.
  induction N as [| N IH]; intros H; cbn [Csum]; [reflexivity |].
  rewrite IH by (intros n Hn; apply H; lia).
  rewrite H by lia. reflexivity.
Qed.

Lemma Csum_zero (f : Z -> C) (N : nat) :
  (forall n, (1 <= n <= Z.of_nat N)%Z -> f n = C0) -> Csum f N = C0.
Proof.
  induction N as [| N IH]; intros H; cbn [Csum]; [reflexivity |].
  rewrite IH by (intros n Hn; apply H; lia).
  rewrite H by lia. unfold Cplus, C0; cbn. f_equal; ring.
Qed.

Lemma Cmult_zero_l (c : R) (z : C) : c = 0 -> Cmult (RtoC c) z = C0.
Proof.
  intros ->. unfold Cmult, RtoC, C0, Re, Im; cbn [fst snd]. f_equal; ring.
Qed.

Lemma phi_left (n : Z) : phi n 0 = 0.
Proof.
  unfold phi. replace (IZR n * PI * 0 / a) with 0 by (unfold Rdiv; ring).
  rewrite sin_0. ring.
Qed.

Lemma phi_right (n : Z) : phi n a = 0.
Proof.
  unfold phi. replace (IZR n * PI * a / a) with (IZR n * PI)
    by (field; generalize a_pos; lra).
  rewrite sin_Z_PI. ring.
Qed.

Lemma psi_sum_walls (x0 t : R) : x0 = 0 \/ x0 = a -> psi_sum x0 t = C0.
Proof.
  intros Hx. unfold psi_sum. apply Csum_zero. intros n _.
  apply Cmult_zero_l.
  destruct Hx as [-> | ->]; [rewrite phi_left | rewrite phi_right]; ring.
Qed.

Lemma linspace_nth (start stop : R) (num i : nat) :
  (i < num)%nat ->
  nth_error (linspace start stop num) i =
  Some (start + INR i * ((stop - start) / INR (num - 1))).
Proof.
  intros Hi. unfold linspace.
  rewrite nth_error_map, nth_error_seq.
  destruct (Nat.ltb_spec i num) as [_ | Hge]; [reflexivity | lia].
Qed.

Lemma linspace_length (start stop : R) (num : nat) :
  length (linspace start stop num) = num.
Proof. unfold linspace. now rewrite length_map, length_seq. Qed.

Lemma linspace_first (start stop : R) (num : nat) :
  (0 < num)%nat -> nth_error (linspace start stop num) 0 = Some start.
Proof.
  intros Hn. rewrite linspace_nth by exact Hn.
  f_equal. cbn [INR]. ring.
Qed.

Lemma linspace_last (start stop : R) (num : nat) :
  (1 < num)%nat -> nth_error (linspace start stop num) (num - 1) = Some stop.
Proof.
  intros Hn. rewrite linspace_nth by lia.
  f_equal. field. apply not_0_INR. lia.
Qed.

Lemma grid_first : nth_error x 0 = Some 0.
Proof. apply linspace_first. lia. Qed.

Lemma grid_last : nth_error x 999 = Some a.
Proof. apply (linspace_last 0 a 1000). lia. Qed.

Lemma frames_first : nth_error frames 0 = Some 0.
Proof. apply linspace_first. lia. Qed.

(** The squared modulus is the sum of the squares of the two parts. *)
Lemma Cabs_sq (z : C) : Cabs z ^ 2 = Re z * Re z + Im z * Im z.
Proof.
  unfold Cabs. cbn [pow]. rewrite Rmult_1_r. apply sqrt_sqrt. nra.
Qed.

Lemma Cabs_sq_nonneg (z : C) : 0 <= Cabs z ^ 2.
Proof. rewrite Cabs_sq. nra. Qed.

Lemma abs_sq_nonneg (zs : list C) : Forall (fun y => 0 <= y) (abs_sq zs).
Proof.
  unfold abs_sq. apply Forall_forall. intros y Hy.
  apply in_map_iff in Hy. destruct Hy as [z [<- _]]. apply Cabs_sq_nonneg.
Qed.

Lemma init_eval (p : plot) :
  init p = Some {| ydata := abs_sq (map (fun xi => psi_sum xi 0) x);
                  time_text := Some LabelInit |}.
Proof. unfold init. rewrite psi_eval. reflexivity. Qed.

Lemma update_eval (t : R) (p : plot) :
  update t p = Some {| ydata := abs_sq (map (fun xi => psi_sum xi t) x);
                      time_text := Some (LabelTime t) |}.
Proof. unfold update. rewrite psi_eval. reflexivity. Qed.

Lemma cos_period_Z (r : R) (k : Z) : cos (r + 2 * IZR k * PI) = cos r.
Proof.
  destruct (Z_le_gt_dec 0 k) as [Hk | Hk].
  - rewrite <- (Z2Nat.id k Hk), <- INR_IZR_INZ. apply cos_period.
  - rewrite <- (cos_period (r + 2 * IZR k * PI) (Z.to_nat (- k))).
    f_equal. rewrite INR_IZR_INZ, Z2Nat.id, opp_IZR by lia. ring.
Qed.

Lemma sin_period_Z (r : R) (k : Z) : sin (r + 2 * IZR k * PI) = sin r.
Proof.
  destruct (Z_le_gt_dec 0 k) as [Hk | Hk].
  - rewrite <- (Z2Nat.id k Hk), <- INR_IZR_INZ. apply sin_period.
  - rewrite <- (sin_period (r + 2 * IZR k * PI) (Z.to_nat (- k))).
    f_equal. rewrite INR_IZR_INZ, Z2Nat.id, opp_IZR by lia. ring.
Qed.

Lemma expmi_period (theta : R) (k : Z) :
  expmi (theta + 2 * IZR k * PI) = expmi theta.
Proof. rewrite !expmi_eq, cos_period_Z, sin_period_Z. reflexivity. Qed.

Lemma tau_pos : 0 < tau.
Proof.
  unfold tau. apply Rdiv_lt_0_compat; [apply denom_pos |].
  apply Rmult_lt_0_compat; [| apply hbar_pos].
  apply pow_lt, PI_RGT_0.
Qed.

(** Over [k] fundamental periods the angle of the [n]-th phase grows by
    [n^2 k] full turns. *)
Lemma angle_shift (n k : Z) (t : R) :
  E_n n * (t + IZR k * fundamental_period) / hbar =
  E_n n * t / hbar + 2 * IZR (n * n * k) * PI.
Proof.
  unfold E_n, fundamental_period, tau. rewrite !mult_IZR.
  generalize m_pos a_pos hbar_pos PI_RGT_0; intros Hm Ha Hh HP.
  field. repeat split; lra.
Qed.

Lemma psi_sum_periodic (x0 t : R) (k : Z) :
  psi_sum x0 (t + IZR k * fundamental_period) = psi_sum x0 t.
Proof.
  unfold psi_sum. apply Csum_ext. intros n _.
  rewrite angle_shift, expmi_period. reflexivity.
Qed.

(** The animated time span of the script, ten characteristic times, is
    not a whole number of periods. *)
Lemma t_max_not_multiple (k : Z) : t_max <> IZR k * fundamental_period.
Proof.
  unfold t_max, fundamental_period. intros E.
  assert (Ht := tau_pos). assert (HP := PI_gt_3). assert (HP4 := PI_4).
  assert (E' : IZR k * PI = 5) by nra.
  destruct (Z_le_gt_dec k 1) as [Hle | Hgt].
  - assert (Hk : IZR k <= 1) by (apply IZR_le; exact Hle). nra.
  - assert (Hk : 2 <= IZR k) by (apply IZR_le; lia). nra.
Qed.

End Frames.

(** * The expansion of the specification against the expansion of the code *)

Section Separation.

Lemma Re_Csum (f : Z -> C) (N : nat) :
  Re (Csum f N) = Rsum (fun n => Re (f n)) N.
Proof.
  induction N as [| N IH]; cbn [Csum Rsum]; [reflexivity |].
  unfold Cplus at 1. cbn [Re fst]. rewrite IH. reflexivity.
Qed.

Lemma Rsum_minus (f g : Z -> R) (N : nat) :
  Rsum f N - Rsum g N = Rsum (fun n => f n - g n) N.
Proof.
  induction N as [| N IH]; cbn [Rsum]; [ring |].
  rewrite <- IH. ring.
Qed.

Lemma Rsum_ext (f g : Z -> R) (N : nat) :
  (forall n, (1 <= n <= Z.of_nat N)%Z -> f n = g n) -> Rsum f N = Rsum g N.
Proof.
  induction N as [| N IH]; intros H; cbn [Rsum]; [reflexivity |].
  rewrite IH by (intros n Hn; apply H; lia).
  rewrite H by lia. reflexivity.
Qed.

Lemma Re_summand (b theta : R) : Re (Cmult (RtoC b) (expmi theta)) = b * cos theta.
Proof.
  rewrite expmi_eq. unfold Cmult, RtoC, Re, Im; cbn [fst snd]. ring.
Qed.

(** The cosine at an integer multiple of [pi]. *)
Lemma cos_Z_PI (j : Z) : cos (IZR j * PI) = if Z.even j then 1 else -1.
Proof.
  rewrite (Z_div_mod_eq_full j 2) at 1.
  rewrite Zmod_even. rewrite plus_IZR, mult_IZR.
  destruct (Z.even j).
  - replace ((2 * IZR (j / 2) + 0) * PI) with (0 + 2 * IZR (j / 2) * PI) by ring.
    rewrite cos_period_Z. apply cos_0.
  - replace ((2 * IZR (j / 2) + 1) * PI) with (PI + 2 * IZR (j / 2) * PI) by ring.
    rewrite cos_period_Z. apply cos_PI.
Qed.

(** At [t_sep] the angle the specification prescribes for the [n]-th
    mode is [n^2 pi]. *)
Lemma spec_angle_sep (n : Z) :
  E_n_spec n * t_sep / hbar = IZR (n * n) * PI.
Proof.
  unfold E_n_spec, t_sep. rewrite mult_IZR.
  generalize m_pos a_pos hbar_pos PI_RGT_0; intros Hm Ha Hh HP.
  field; repeat split; lra.
Qed.

(** The angle the code computes is [n^2 pi hbar], some [1e-34] of
    that. *)
Lemma code_angle_sep (n : Z) :
  E_n n * t_sep / hbar = IZR n * IZR n * (PI * hbar).
Proof.
  unfold E_n, t_sep.
  generalize m_pos a_pos hbar_pos PI_RGT_0; intros Hm Ha Hh HP.
  field; repeat split; lra.
Qed.

Lemma spec_cos_sep (n : Z) :
  cos (E_n_spec n * t_sep / hbar) = if Z.even n then 1 else -1.
Proof.
  rewrite spec_angle_sep, cos_Z_PI, Z.even_mul.
  destruct (Z.even n); reflexivity.
Qed.

(** A cosine is within half the squared angle of [1]. *)
Lemma one_minus_cos (u : R) : 0 <= 1 - cos u <= u * u / 2.
Proof.
  replace u with (2 * (u / 2)) at 1 2 by field.
  rewrite cos_2a_sin.
  assert (Hs := Rabs_sin_le (u / 2)).
  assert (Hq : sin (u / 2) * sin (u / 2) <= u / 2 * (u / 2)).
  { apply Rsqr_le_abs_1 in Hs. exact Hs. }
  assert (Hp : 0 <= sin (u / 2) * sin (u / 2)) by nra.
  lra.
Qed.

(** The difference of the real parts is the sum of the gaps. *)
Lemma Re_difference :
  Re (psi_sum (a / 3) t_sep) - Re (psi_spec (a / 3) t_sep) =
  Rsum gap (Z.to_nat Nmax).
Proof.
  unfold psi_spec, psi_sum. rewrite !Re_Csum, Rsum_minus.
  apply Rsum_ext. intros n _.
  rewrite !Re_summand. unfold gap. ring.
Qed.

Lemma sqrt_2a_pos : 0 < sqrt (2 / a).
Proof.
  apply sqrt_lt_R0. apply Rdiv_lt_0_compat; [lra | apply a_pos].
Qed.

Lemma amp_pos : 0 < amp.
Proof.
  unfold amp. apply Rmult_lt_0_compat; [| apply sqrt_2a_pos].
  apply Rdiv_lt_0_compat; [apply sqrt2_pos | apply PI_RGT_0].
Qed.

Lemma sqrt3_lower : 17 / 10 < sqrt 3.
Proof.
  assert (H0 : 0 <= sqrt 3) by apply sqrt_pos.
  assert (H1 : sqrt 3 * sqrt 3 = 3) by (apply sqrt_sqrt; lra).
  nra.
Qed.


Lemma Rabs_le_inv (u v : R) : Rabs u <= v -> - v <= u <= v.
Proof. unfold Rabs. destruct Rcase_abs; lra. Qed.

Lemma tele_step (r : R) :
  2 < r -> tele r - tele (r + 1) = 4 / (r * r - 4).
Proof.
  intros Hr. unfold tele.
  assert (r * r - 4 <> 0) by nra.
  field. repeat split; lra.
Qed.

Lemma tele_pos (r : R) : 2 < r -> 0 < tele r.
Proof.
  intros Hr. unfold tele.
  assert (0 < / (r - 2)) by (apply Rinv_0_lt_compat; lra).
  assert (0 < / (r - 1)) by (apply Rinv_0_lt_compat; lra).
  assert (0 < / r) by (apply Rinv_0_lt_compat; lra).
  assert (0 < / (r + 1)) by (apply Rinv_0_lt_compat; lra).
  lra.
Qed.

Lemma tele_5 : tele 5 = 19 / 20.
Proof. unfold tele. field. Qed.

(** Beyond the fourth mode a coefficient is at most
    [(sqrt 2 / pi) 4 / (n^2 - 4)] in absolute value. *)
Lemma coef_bound (n : Z) :
  (3 <= n)%Z -> Rabs (coef n) <= sqrt 2 / PI * (4 / (IZR n * IZR n - 4)).
Proof.
  intros Hn. unfold coef.
  destruct (Z.eqb_spec n 2) as [E | _]; [lia |].
  assert (Hr : 3 <= IZR n) by (apply IZR_le; exact Hn).
  rewrite closed_form_single by lra.
  assert (Hq : 0 < sqrt 2 / PI).
  { apply Rdiv_lt_0_compat; [apply sqrt2_pos | apply PI_RGT_0]. }
  assert (Hd : 0 < IZR n * IZR n - 4) by nra.
  assert (Hf : 0 < 4 / (IZR n * IZR n - 4)) by (apply Rdiv_lt_0_compat; lra).
  rewrite !Rabs_mult, (Rabs_pos_eq (sqrt 2 / PI)) by lra.
  replace (4 / (4 - IZR n * IZR n)) with (- (4 / (IZR n * IZR n - 4)))
    by (field; split; lra).
  rewrite Rabs_Ropp, (Rabs_pos_eq (4 / (IZR n * IZR n - 4))) by lra.
  assert (Hs : Rabs (sin (IZR n * PI / 2)) <= 1).
  { apply Rabs_le. generalize (SIN_bound (IZR n * PI / 2)); lra. }
  assert (Hs0 : 0 <= Rabs (sin (IZR n * PI / 2))) by apply Rabs_pos.
  apply Rmult_le_compat_l; [lra |]. nra.
Qed.

Lemma phi_bound (n : Z) (x0 : R) : Rabs (phi n x0) <= sqrt (2 / a).
Proof.
  unfold phi. rewrite Rabs_mult, (Rabs_pos_eq (sqrt (2 / a))).
  2:{ apply sqrt_pos. }
  assert (Hs : Rabs (sin (IZR n * PI * x0 / a)) <= 1).
  { apply Rabs_le. generalize (SIN_bound (IZR n * PI * x0 / a)); lra. }
  generalize sqrt_2a_pos; intros Hp. nra.
Qed.


(** The angle of the first mode at [t_sep]. *)
Lemma eps_bounds : 0 < PI * hbar < 1e-33.
Proof.
  assert (HP := PI_RGT_0). assert (HP4 := PI_4). assert (Hh := hbar_pos).
  split; [nra |].
  assert (Hv : hbar < 2e-34) by (unfold hbar; lra).
  nra.
Qed.

(** The first coefficient and the first mode at [a/3]. *)
Lemma first_summand : coef 1 * phi 1 (a / 3) = amp * (2 * sqrt 3 / 3).
Proof.
  unfold coef. cbn [Z.eqb Pos.eqb].
  rewrite closed_form_single by lra.
  unfold phi.
  replace (1 * PI / 2) with (PI / 2) by field.
  replace (1 * PI * (a / 3) / a) with (PI / 3)
    by (field; generalize a_pos; lra).
  rewrite sin_PI2, sin_PI3. unfold amp. field.
  generalize PI_RGT_0; lra.
Qed.

Lemma gap_1 : amp * (2 * sqrt 3 / 3) * (199 / 100) <= gap 1.
Proof.
  unfold gap. rewrite first_summand, spec_cos_sep, code_angle_sep.
  cbn [Z.even].
  assert (He := eps_bounds).
  assert (Hc := one_minus_cos (1 * 1 * (PI * hbar))).
  assert (Hq : 1 * 1 * (PI * hbar) * (1 * 1 * (PI * hbar)) / 2 <= 1 / 100) by nra.
  assert (Ha : 0 < amp * (2 * sqrt 3 / 3)).
  { apply Rmult_lt_0_compat; [apply amp_pos | generalize sqrt3_lower; lra]. }
  apply Rmult_le_compat_l; lra.
Qed.

Lemma gap_2 : - (amp / 100) <= gap 2.
Proof.
  unfold gap. rewrite spec_cos_sep, code_angle_sep. cbn [Z.even].
  assert (He := eps_bounds).
  assert (Hc := one_minus_cos (2 * 2 * (PI * hbar))).
  assert (Hq : 2 * 2 * (PI * hbar) * (2 * 2 * (PI * hbar)) / 2 <= 1 / 400) by nra.
  assert (Hp := phi_bound 2 (a / 3)).
  assert (Hk : coef 2 = sqrt 2 / 2) by reflexivity.
  assert (Hs := sqrt_2a_pos). assert (Hs2 := sqrt2_pos).
  assert (HPI := PI_RGT_0). assert (HPI4 := PI_4).
  assert (Hamp : sqrt 2 / 2 * sqrt (2 / a) <= 2 * amp).
  { unfold amp.
    replace (2 * (sqrt 2 / PI * sqrt (2 / a)))
      with (sqrt 2 * sqrt (2 / a) * (2 / PI)) by (field; lra).
    replace (sqrt 2 / 2 * sqrt (2 / a))
      with (sqrt 2 * sqrt (2 / a) * (1 / 2)) by field.
    apply Rmult_le_compat_l; [nra |].
    apply Rmult_le_reg_r with (2 * PI); [lra |].
    replace (2 / PI * (2 * PI)) with 4 by (field; lra). lra. }
  rewrite Hk.
  set (d := cos (2 * 2 * (PI * hbar)) - 1) in *.
  assert (Hd : - (1 / 400) <= d <= 0) by (unfold d; lra).
  assert (Hb : Rabs (sqrt 2 / 2 * phi 2 (a / 3)) <= 2 * amp).
  { rewrite Rabs_mult, (Rabs_pos_eq (sqrt 2 / 2)) by lra.
    eapply Rle_trans; [| exact Hamp].
    apply Rmult_le_compat_l; lra. }
  apply Rabs_le_inv in Hb.
  assert (Hamp0 := amp_pos). nra.
Qed.

Lemma gap_3 : gap 3 = 0.
Proof.
  unfold gap, phi.
  replace (3 * PI * (a / 3) / a) with PI by (field; generalize a_pos; lra).
  rewrite sin_PI. ring.
Qed.

Lemma gap_4 : gap 4 = 0.
Proof.
  unfold gap, coef. cbn [Z.eqb Pos.eqb].
  change 4 with (IZR (2 * 2)) at 1.
  rewrite (closed_form_even 2). ring.
Qed.

Lemma gap_bound (n : Z) :
  (3 <= n)%Z ->
  Rabs (gap n) <= 2 * amp * (tele (IZR n) - tele (IZR n + 1)).
Proof.
  intros Hn.
  assert (Hr : 3 <= IZR n) by (apply IZR_le; exact Hn).
  rewrite tele_step by lra.
  unfold gap. rewrite !Rabs_mult.
  assert (Hc := coef_bound n Hn).
  assert (Hp := phi_bound n (a / 3)).
  set (D := cos (E_n n * t_sep / hbar) - cos (E_n_spec n * t_sep / hbar)).
  assert (Hk : Rabs D <= 2).
  { apply Rabs_le. unfold D.
    generalize (COS_bound (E_n n * t_sep / hbar))
               (COS_bound (E_n_spec n * t_sep / hbar)); lra. }
  assert (Hc0 := Rabs_pos (coef n)).
  assert (Hp0 := Rabs_pos (phi n (a / 3))).
  assert (Hk0 := Rabs_pos D).
  assert (Hd : 0 < IZR n * IZR n - 4) by nra.
  assert (Hf : 0 < 4 / (IZR n * IZR n - 4)) by (apply Rdiv_lt_0_compat; lra).
  assert (Hq : 0 < sqrt 2 / PI).
  { apply Rdiv_lt_0_compat; [apply sqrt2_pos | apply PI_RGT_0]. }
  assert (Hs := sqrt_2a_pos).
  set (F := 4 / (IZR n * IZR n - 4)) in *.
  assert (H1 : Rabs (coef n) * Rabs (phi n (a / 3))
               <= sqrt 2 / PI * F * sqrt (2 / a)).
  { apply Rmult_le_compat; try assumption. }
  assert (H10 : 0 <= Rabs (coef n) * Rabs (phi n (a / 3))) by nra.
  assert (H2 : Rabs (coef n) * Rabs (phi n (a / 3)) * Rabs D
               <= sqrt 2 / PI * F * sqrt (2 / a) * 2).
  { apply Rmult_le_compat; try assumption. }
  unfold amp. lra.
Qed.

(** The partial sums of the gaps stay above the first two gaps less the
    telescoped bound on those from the fifth on. *)
Lemma Rsum_gap_lower (k : nat) :
  gap 1 + gap 2 - 2 * amp * (tele 5 - tele (IZR (Z.of_nat (5 + k))))
  <= Rsum gap (4 + k).
Proof.
  induction k as [| k IH].
  - cbn [Nat.add Rsum Z.of_nat Pos.of_succ_nat Pos.succ].
    rewrite gap_3, gap_4. lra.
  - replace (4 + S k)%nat with (S (4 + k)) by lia. cbn [Rsum].
    assert (Hn : (3 <= Z.of_nat (S (4 + k)))%Z) by lia.
    assert (Hb := gap_bound _ Hn).
    replace (Z.of_nat (5 + S k)) with (Z.of_nat (S (4 + k)) + 1)%Z by lia.
    rewrite plus_IZR.
    replace (Z.of_nat (5 + k)) with (Z.of_nat (S (4 + k))) in IH by lia.
    apply Rabs_le_inv in Hb. lra.
Qed.

Lemma Rsum_gap_pos : 0 < Rsum gap (Z.to_nat Nmax).
Proof.
  change (Z.to_nat Nmax) with (4 + 46)%nat.
  eapply Rlt_le_trans; [| apply Rsum_gap_lower].
  assert (H1 := gap_1). assert (H2 := gap_2).
  rewrite tele_5.
  assert (Ht : 0 < tele (IZR (Z.of_nat (5 + 46)))).
  { apply tele_pos. replace (Z.of_nat (5 + 46)) with 51%Z by reflexivity. lra. }
  generalize amp_pos sqrt3_lower; intros Ha Hs. nra.
Qed.

Lemma grid_third : nth_error x 333 = Some (a / 3).
Proof.
  unfold x. rewrite linspace_nth by lia.
  f_equal. rewrite !INR_IZR_INZ.
  change (IZR (Z.of_nat 333)) with 333.
  change (IZR (Z.of_nat (1000 - 1))) with 999.
  field.
Qed.

(** At the grid point [a/3] and the time [t_sep] the two expansions have
    different real parts. *)
Lemma psi_spec_neq_psi_sum : psi_spec (a / 3) t_sep <> psi_sum (a / 3) t_sep.
Proof.
  intros E. generalize Re_difference Rsum_gap_pos. rewrite E. lra.
Qed.

End Separation.

(** * Orthogonality of the modes on the grid *)

Section Orthogonality.

Lemma Rsum_plus (f g : Z -> R) (N : nat) :
  Rsum f N + Rsum g N = Rsum (fun n => f n + g n) N.
Proof.
  induction N as [| N IH]; cbn [Rsum]; [ring |]. rewrite <- IH. ring.
Qed.

Lemma Rsum_scal (c : R) (f : Z -> R) (N : nat) :
  c * Rsum f N = Rsum (fun n => c * f n) N.
Proof.
  induction N as [| N IH]; cbn [Rsum]; [ring |]. rewrite <- IH. ring.
Qed.

Lemma Rsum_const_zero (N : nat) : Rsum (fun _ => 0) N = 0.
Proof. induction N as [| N IH]; cbn [Rsum]; [reflexivity | rewrite IH; ring]. Qed.

Lemma Rsum_swap (F : Z -> Z -> R) (M N : nat) :
  Rsum (fun j => Rsum (fun n => F j n) M) N =
  Rsum (fun n => Rsum (fun j => F j n) N) M.
Proof.
  induction N as [| N IH]; cbn [Rsum].
  - symmetry. apply Rsum_const_zero.
  - rewrite IH, Rsum_plus. reflexivity.
Qed.

Lemma Rsum_mult (f g : Z -> R) (M : nat) :
  Rsum f M * Rsum g M = Rsum (fun n => Rsum (fun k => f n * g k) M) M.
Proof.
  rewrite Rmult_comm, Rsum_scal. apply Rsum_ext. intros n _.
  rewrite Rmult_comm. apply Rsum_scal.
Qed.

(** A sum with a single nonzero summand. *)
Lemma Rsum_single (c : Z -> R) (n : Z) (M : nat) :
  (1 <= n <= Z.of_nat M)%Z ->
  Rsum (fun k => if (n =? k)%Z then c k else 0) M = c n.
Proof.
  induction M as [| M IH]; intros Hn; [lia |]. cbn [Rsum].
  destruct (Z.eqb_spec n (Z.of_nat (S M))) as [E | NE].
  - rewrite <- E.
    rewrite (Rsum_ext _ (fun _ => 0)), Rsum_const_zero; [ring |].
    intros k Hk. destruct (Z.eqb_spec n k); [lia | reflexivity].
  - rewrite IH by lia. ring.
Qed.

(** The sum of cosines over an arithmetic progression, telescoped. *)
Lemma cos_sum_telescope (theta : R) (M : nat) :
  2 * sin (theta / 2) * Rsum (fun j => cos (IZR j * theta)) M =
  sin ((INR M + 1 / 2) * theta) - sin (theta / 2).
Proof.
  induction M as [| M IH].
  - cbn [Rsum INR]. replace ((0 + 1 / 2) * theta) with (theta / 2) by field. ring.
  - cbn [Rsum]. rewrite Rmult_plus_distr_l, IH.
    rewrite <- INR_IZR_INZ, S_INR.
    replace ((INR M + 1 + 1 / 2) * theta)
      with ((INR M + 1) * theta + theta / 2) by field.
    replace ((INR M + 1 / 2) * theta)
      with ((INR M + 1) * theta - theta / 2) by field.
    rewrite sin_plus, sin_minus. ring.
Qed.

(** Over the [N] points [j pi / N] the cosines of [p] times the angle
    add up to [N] when [p = 0] and otherwise, for [|p| < 2 N], to [0]
    or [-1] as [p] is even or odd. *)
Lemma cos_sum_grid_pos (p : Z) (N : nat) :
  (0 < p < 2 * Z.of_nat N)%Z ->
  Rsum (fun j => cos (IZR j * (IZR p * PI / INR N))) N =
  if Z.even p then 0 else -1.
Proof.
  intros Hp.
  assert (HN : 0 < INR N) by (apply lt_0_INR; lia).
  assert (Hp0 : 0 < IZR p) by (apply IZR_lt; lia).
  assert (Hp1 : IZR p < 2 * INR N).
  { rewrite INR_IZR_INZ, <- mult_IZR. apply IZR_lt. lia. }
  assert (HPI := PI_RGT_0).
  set (theta := IZR p * PI / INR N).
  assert (Hhalf : 0 < theta / 2 < PI).
  { unfold theta. split.
    - apply Rdiv_lt_0_compat; [| lra].
      apply Rdiv_lt_0_compat; [nra | lra].
    - apply Rmult_lt_reg_r with (2 * INR N); [lra |].
      replace (IZR p * PI / INR N / 2 * (2 * INR N)) with (IZR p * PI)
        by (field; lra).
      nra. }
  assert (Hs : 0 < sin (theta / 2)) by (apply sin_gt_0; lra).
  assert (Ht := cos_sum_telescope theta N).
  replace ((INR N + 1 / 2) * theta) with (theta / 2 + IZR p * PI) in Ht
    by (unfold theta; field; lra).
  rewrite sin_plus, sin_Z_PI, cos_Z_PI in Ht.
  destruct (Z.even p); nra.
Qed.

Lemma cos_sum_grid_zero (N : nat) :
  Rsum (fun j => cos (IZR j * (IZR 0 * PI / INR N))) N = INR N.
Proof.
  rewrite (Rsum_ext _ (fun _ => 1)).
  - induction N as [| N IH]; [reflexivity |].
    cbn [Rsum]. rewrite IH, S_INR. ring.
  - intros j _. replace (IZR j * (0 * PI / INR N)) with 0
      by (unfold Rdiv; ring).
    apply cos_0.
Qed.

Lemma cos_sum_grid_neg (p : Z) (N : nat) :
  Rsum (fun j => cos (IZR j * (IZR (- p) * PI / INR N))) N =
  Rsum (fun j => cos (IZR j * (IZR p * PI / INR N))) N.
Proof.
  apply Rsum_ext. intros j _. rewrite opp_IZR.
  replace (IZR j * (- IZR p * PI / INR N))
    with (- (IZR j * (IZR p * PI / INR N))) by (unfold Rdiv; ring).
  apply cos_neg.
Qed.

(** The sines [sin (n j pi / N)], [j = 1..N], of two modes below [N] are
    orthogonal, with squared norm [N / 2]. *)
Lemma sin_orthogonal (n k : Z) (N : nat) :
  (0 < n < Z.of_nat N)%Z -> (0 < k < Z.of_nat N)%Z ->
  Rsum (fun j => sin (IZR j * (IZR n * PI / INR N))
                 * sin (IZR j * (IZR k * PI / INR N))) N =
  if (n =? k)%Z then INR N / 2 else 0.
Proof.
  intros Hn Hk.
  assert (HN : 0 < INR N) by (apply lt_0_INR; lia).
  rewrite (Rsum_ext _
    (fun j => / 2 * cos (IZR j * (IZR (n - k) * PI / INR N))
              + - / 2 * cos (IZR j * (IZR (n + k) * PI / INR N)))).
  2:{ intros j _. rewrite minus_IZR, plus_IZR.
      replace (IZR j * ((IZR n - IZR k) * PI / INR N))
        with (IZR j * (IZR n * PI / INR N) - IZR j * (IZR k * PI / INR N))
        by (field; lra).
      replace (IZR j * ((IZR n + IZR k) * PI / INR N))
        with (IZR j * (IZR n * PI / INR N) + IZR j * (IZR k * PI / INR N))
        by (field; lra).
      rewrite cos_minus, cos_plus. field. }
  rewrite <- Rsum_plus, <- !Rsum_scal.
  rewrite (cos_sum_grid_pos (n + k)) by lia.
  destruct (Z.eqb_spec n k) as [E | NE].
  - subst k. rewrite Z.sub_diag, cos_sum_grid_zero.
    replace (n + n)%Z with (2 * n)%Z by lia.
    rewrite Z.even_mul. cbn [Z.even orb]. field.
  - assert (Hpar : Z.even (n + k) = Z.even (n - k)).
    { rewrite Z.even_add, Z.even_sub. reflexivity. }
    rewrite Hpar.
    destruct (Z_lt_le_dec k n) as [Hlt | Hge].
    + rewrite (cos_sum_grid_pos (n - k)) by lia. ring.
    + replace (n - k)%Z with (- (k - n))%Z by lia.
      rewrite cos_sum_grid_neg, Z.even_opp.
      rewrite (cos_sum_grid_pos (k - n)) by lia. ring.
Qed.

Lemma Rsum_shift (f : Z -> R) (k : nat) :
  Rsum f (S k) = f 1%Z + Rsum (fun i => f (i + 1)%Z) k.
Proof.
  induction k as [| k IH].
  - cbn [Rsum]. change (Z.of_nat 1) with 1%Z. ring.
  - change (Rsum f (S (S k))) with (Rsum f (S k) + f (Z.of_nat (S (S k)))).
    rewrite IH. cbn [Rsum].
    replace (Z.of_nat (S k) + 1)%Z with (Z.of_nat (S (S k))) by lia. ring.
Qed.

Lemma trapz_cons2 (y0 y1 x0 x1 : R) (ys xs : list R) :
  trapz (y0 :: y1 :: ys) (x0 :: x1 :: xs) =
  (x1 - x0) * (y0 + y1) / 2 + trapz (y1 :: ys) (x1 :: xs).
Proof. reflexivity. Qed.

(** The trapezoid rule on equally spaced abscissas. *)
Lemma trapz_uniform (Y X : nat -> R) (h : R) :
  (forall i, X (S i) - X i = h) ->
  forall k s,
  trapz (map Y (seq s (S k))) (map X (seq s (S k))) =
  h * (Y s / 2 + Rsum (fun i => Y (s + Z.to_nat i)%nat) k - Y (s + k)%nat / 2).
Proof.
  intros Hh. induction k as [| k IH]; intros s.
  - cbn [seq map trapz Rsum]. rewrite Nat.add_0_r. field.
  - cbn [seq map]. rewrite trapz_cons2.
    change (Y (S s) :: map Y (seq (S (S s)) k)) with (map Y (seq (S s) (S k))).
    change (X (S s) :: map X (seq (S (S s)) k)) with (map X (seq (S s) (S k))).
    rewrite IH, Hh, (Rsum_shift _ k).
    change (Z.to_nat 1) with 1%nat.
    replace (s + 1)%nat with (S s) by lia.
    replace (s + S k)%nat with (S s + k)%nat by lia.
    rewrite (Rsum_ext (fun i => Y (s + Z.to_nat (i + 1))%nat)
                      (fun i => Y (S s + Z.to_nat i)%nat)).
    2:{ intros i Hi. f_equal. lia. }
    field.
Qed.

(** Parseval's identity on the grid: the squares of a sine polynomial
    with fewer modes than grid intervals add up, over the grid, to
    [N / 2] times the sum of the squared coefficients. *)
Lemma parseval_grid (alpha : Z -> R) (M N : nat) :
  (M < N)%nat ->
  Rsum (fun j =>
          Rsum (fun n => alpha n * sin (IZR j * (IZR n * PI / INR N))) M
          * Rsum (fun n => alpha n * sin (IZR j * (IZR n * PI / INR N))) M) N =
  INR N / 2 * Rsum (fun n => alpha n * alpha n) M.
Proof.
  intros HMN.
  rewrite (Rsum_ext _ (fun j => Rsum (fun n => Rsum (fun k =>
             alpha n * sin (IZR j * (IZR n * PI / INR N))
             * (alpha k * sin (IZR j * (IZR k * PI / INR N)))) M) M))
    by (intros j _; apply Rsum_mult).
  rewrite Rsum_swap, Rsum_scal.
  apply Rsum_ext. intros n Hn.
  rewrite Rsum_swap.
  rewrite (Rsum_ext _ (fun k => if (n =? k)%Z
                                then INR N / 2 * (alpha n * alpha k) else 0)).
  - rewrite (Rsum_single (fun k => INR N / 2 * (alpha n * alpha k))) by lia.
    reflexivity.
  - intros k Hk.
    rewrite (Rsum_ext _ (fun j => alpha n * alpha k *
               (sin (IZR j * (IZR n * PI / INR N))
                * sin (IZR j * (IZR k * PI / INR N)))))
      by (intros j _; ring).
    rewrite <- Rsum_scal, sin_orthogonal by lia.
    destruct (n =? k)%Z; ring.
Qed.

Lemma Im_Csum (f : Z -> C) (N : nat) :
  Im (Csum f N) = Rsum (fun n => Im (f n)) N.
Proof.
  induction N as [| N IH]; cbn [Csum Rsum]; [reflexivity |].
  unfold Cplus at 1. cbn [Im snd]. rewrite IH. reflexivity.
Qed.

Lemma Im_summand (b theta : R) :
  Im (Cmult (RtoC b) (expmi theta)) = b * - sin theta.
Proof.
  rewrite expmi_eq. unfold Cmult, RtoC, Re, Im; cbn [fst snd]. ring.
Qed.

(** The abscissa of the [j]-th grid point and the sine of a mode there. *)
Lemma phi_grid (n j : Z) :
  (0 <= j)%Z ->
  phi n (0 + INR (Z.to_nat j) * ((a - 0) / INR (1000 - 1))) =
  sqrt (2 / a) * sin (IZR j * (IZR n * PI / INR 999)).
Proof.
  intros Hj. unfold phi. f_equal. f_equal.
  rewrite INR_IZR_INZ, Z2Nat.id by exact Hj.
  change (1000 - 1)%nat with 999%nat.
  assert (H999 : INR 999 <> 0) by (apply not_0_INR; lia).
  field. split; [exact H999 | generalize a_pos; lra].
Qed.

(** The density at the [j]-th grid point, in terms of the real and
    imaginary sine polynomials. *)
Lemma density_grid (t : R) (j : Z) :
  (0 <= j)%Z ->
  Cabs (psi_sum (0 + INR (Z.to_nat j) * ((a - 0) / INR (1000 - 1))) t) ^ 2 =
  Rsum (fun n => coef n * sqrt (2 / a) * cos (E_n n * t / hbar)
                 * sin (IZR j * (IZR n * PI / INR 999))) 50
  * Rsum (fun n => coef n * sqrt (2 / a) * cos (E_n n * t / hbar)
                   * sin (IZR j * (IZR n * PI / INR 999))) 50
  + Rsum (fun n => coef n * sqrt (2 / a) * - sin (E_n n * t / hbar)
                   * sin (IZR j * (IZR n * PI / INR 999))) 50
    * Rsum (fun n => coef n * sqrt (2 / a) * - sin (E_n n * t / hbar)
                     * sin (IZR j * (IZR n * PI / INR 999))) 50.
Proof.
  intros Hj. rewrite Cabs_sq. unfold psi_sum.
  change (Z.to_nat Nmax) with 50%nat.
  rewrite Re_Csum, Im_Csum.
  rewrite (Rsum_ext (fun n => Re _)
             (fun n => coef n * sqrt (2 / a) * cos (E_n n * t / hbar)
                       * sin (IZR j * (IZR n * PI / INR 999)))).
  2:{ intros n _. rewrite Re_summand, phi_grid by exact Hj. ring. }
  rewrite (Rsum_ext (fun n => Im _)
             (fun n => coef n * sqrt (2 / a) * - sin (E_n n * t / hbar)
                       * sin (IZR j * (IZR n * PI / INR 999)))).
  2:{ intros n _. rewrite Im_summand, phi_grid by exact Hj. ring. }
  reflexivity.
Qed.

(** The densities over the grid add up to [999 / a] times the sum of the
    squared coefficients. *)
Lemma density_grid_sum (t : R) :
  Rsum (fun j =>
          Cabs (psi_sum (0 + INR (Z.to_nat j) * ((a - 0) / INR (1000 - 1))) t) ^ 2)
       999 =
  INR 999 / a * Rsum (fun n => coef n * coef n) 50.
Proof.
  rewrite (Rsum_ext _ _ 999 (fun j Hj => density_grid t j ltac:(lia))).
  rewrite <- Rsum_plus.
  rewrite (parseval_grid
             (fun n => coef n * sqrt (2 / a) * cos (E_n n * t / hbar)) 50 999)
    by lia.
  rewrite (parseval_grid
             (fun n => coef n * sqrt (2 / a) * - sin (E_n n * t / hbar)) 50 999)
    by lia.
  rewrite <- Rmult_plus_distr_l, Rsum_plus.
  replace (INR 999 / a) with (INR 999 / 2 * (2 / a))
    by (field; generalize a_pos; lra).
  rewrite Rmult_assoc. f_equal. rewrite Rsum_scal.
  apply Rsum_ext. intros n _.
  assert (Hs : sqrt (2 / a) * sqrt (2 / a) = 2 / a).
  { apply sqrt_sqrt. apply Rlt_le, Rdiv_lt_0_compat; [lra | apply a_pos]. }
  assert (Ht := sin2_cos2 (E_n n * t / hbar)). unfold Rsqr in Ht.
  set (c := cos (E_n n * t / hbar)) in *.
  set (s := sin (E_n n * t / hbar)) in *.
  set (r := sqrt (2 / a)) in *.
  replace (coef n * r * c * (coef n * r * c) + coef n * r * - s * (coef n * r * - s))
    with (coef n * coef n * (r * r) * (s * s + c * c)) by ring.
  rewrite Hs, Ht. ring.
Qed.

(** [psi] over the grid, integrated by the trapezoid rule: the sum of
    the squared coefficients, at every time. *)
Lemma total_probability_eval (t : R) :
  total_probability t = Some (Rsum (fun n => coef n * coef n) 50).
Proof.
  unfold total_probability. rewrite psi_eval. cbn [bind]. f_equal.
  unfold abs_sq. rewrite map_map. unfold x at 1 2, linspace.
  rewrite map_map.
  change 1000%nat with (S 999) at 1 3.
  rewrite (trapz_uniform _ _ (a / INR 999)).
  2:{ intros i. rewrite S_INR. change (1000 - 1)%nat with 999%nat.
      assert (H999 : INR 999 <> 0) by (apply not_0_INR; lia).
      field. exact H999. }
  cbn [Nat.add].
  rewrite density_grid_sum.
  assert (H0 : psi_sum (0 + INR 0 * ((a - 0) / INR (1000 - 1))) t = C0).
  { apply psi_sum_walls. left. cbn [INR]. ring. }
  assert (H1 : psi_sum (0 + INR 999 * ((a - 0) / INR (1000 - 1))) t = C0).
  { apply psi_sum_walls. right. change (1000 - 1)%nat with 999%nat.
    field. apply not_0_INR. lia. }
  rewrite H0, H1.
  assert (HC0 : Cabs C0 ^ 2 = 0).
  { rewrite Cabs_sq. unfold C0, Re, Im; cbn [fst snd]. ring. }
  rewrite HC0.
  assert (H999 : INR 999 <> 0) by (apply not_0_INR; lia).
  field. split; [generalize a_pos; lra | exact H999].
Qed.

End Orthogonality.

(** * The sum of the squared coefficients *)

Section Normalisation.

Lemma PI_bounds : 3.14159 < PI < 3.1416.
Proof.
  generalize (PI_2_3_7_ineq 2).
  unfold sum_f_R0, tg_alt, PI_2_3_7_tg, Ratan_seq.
  cbn [Nat.mul Nat.add pow INR].
  lra.
Qed.

Lemma sin_odd_half_PI_sq (k : Z) :
  sin (IZR (2 * k + 1) * PI / 2) * sin (IZR (2 * k + 1) * PI / 2) = 1.
Proof.
  replace (IZR (2 * k + 1) * PI / 2) with (IZR k * PI + PI / 2)
    by (rewrite plus_IZR, mult_IZR; field).
  rewrite sin_plus, sin_Z_PI, cos_PI2, sin_PI2, cos_Z_PI.
  destruct (Z.even k); ring.
Qed.

(** The square of a coefficient: [1/2] for the second mode, nothing for
    the other even modes, [32 / (pi^2 (n^2 - 4)^2)] for the odd ones. *)
Lemma coef_sq (n : Z) :
  (1 <= n)%Z ->
  coef n * coef n = (if (n =? 2)%Z then 1 / 2 else 0) + weight n / (PI * PI).
Proof.
  intros Hn. unfold coef, weight.
  assert (HPI := PI_RGT_0).
  destruct (Z.eqb_spec n 2) as [E | NE].
  - replace (sqrt 2 / 2 * (sqrt 2 / 2)) with (sqrt 2 * sqrt 2 / 4) by field.
    rewrite sqrt2_sq. field. lra.
  - destruct (Z.even n) eqn:He.
    + apply Z.even_spec in He. destruct He as [k ->].
      rewrite closed_form_even. field. lra.
    + assert (Ho : Z.odd n = true) by (rewrite <- Z.negb_even, He; reflexivity).
      apply Z.odd_spec in Ho. destruct Ho as [k Hk].
      assert (Hr : IZR n <> 2) by (intros E; apply eq_IZR in E; lia).
      assert (Hr' : IZR n <> -2) by (intros E; apply eq_IZR in E; lia).
      rewrite closed_form_single by assumption.
      assert (Hd : IZR n * IZR n - 4 <> 0).
      { intros E. assert (E' : (IZR n - 2) * (IZR n + 2) = 0) by lra.
        apply Rmult_integral in E'. lra. }
      assert (Hs := sin_odd_half_PI_sq k). rewrite <- Hk in Hs.
      set (s := sin (IZR n * PI / 2)) in *.
      replace (sqrt 2 / PI * (s * (4 / (4 - IZR n * IZR n)))
               * (sqrt 2 / PI * (s * (4 / (4 - IZR n * IZR n)))))
        with (sqrt 2 * sqrt 2 * (s * s) * 16
              / (PI * PI * ((IZR n * IZR n - 4) * (IZR n * IZR n - 4))))
        by (field; repeat split; lra).
      rewrite sqrt2_sq, Hs. field. split; lra.
Qed.

Lemma coef_sq_sum (M : nat) :
  (2 <= M)%nat ->
  Rsum (fun n => coef n * coef n) M = 1 / 2 + Rsum weight M / (PI * PI).
Proof.
  intros HM.
  rewrite (Rsum_ext _ (fun n => (if (2 =? n)%Z then 1 / 2 else 0)
                                + / (PI * PI) * weight n)).
  2:{ intros n Hn. rewrite coef_sq by lia. rewrite (Z.eqb_sym 2 n).
      unfold Rdiv. ring. }
  rewrite <- Rsum_plus, <- Rsum_scal.
  rewrite (Rsum_single (fun _ => 1 / 2)) by lia.
  unfold Rdiv. ring.
Qed.

Lemma weight_sum_bounds :
  4.93475 < Rsum weight 50 < 4.93476.
Proof.
  unfold Rsum, weight.
  cbn [Z.of_nat Pos.of_succ_nat Pos.succ Z.eqb Pos.eqb Z.even].
  lra.
Qed.

Lemma coef_sq_sum_bounds :
  1 - 1 / 100000 < Rsum (fun n => coef n * coef n) 50 < 1.
Proof.
  rewrite coef_sq_sum by lia.
  assert (HW := weight_sum_bounds). assert (HP := PI_bounds).
  assert (Hsq : 3.14159 * 3.14159 < PI * PI < 3.1416 * 3.1416) by nra.
  assert (Hpos : 0 < PI * PI) by nra.
  split.
  - apply Rmult_lt_reg_r with (PI * PI); [exact Hpos |].
    replace ((1 / 2 + Rsum weight 50 / (PI * PI)) * (PI * PI))
      with (PI * PI / 2 + Rsum weight 50) by (field; lra).
    lra.
  - apply Rmult_lt_reg_r with (PI * PI); [exact Hpos |].
    replace ((1 / 2 + Rsum weight 50 / (PI * PI)) * (PI * PI))
      with (PI * PI / 2 + Rsum weight 50) by (field; lra).
    lra.
Qed.

End Normalisation.

(** * The properties stated by the specification *)

Section Claims.

(** C1, as stated: [psi] would return, at every grid point, the
    expansion whose phases are [exp(-i E_n t / hbar)] with
    [E_n = n^2 pi^2 hbar / (2 m a^2)].  It does not: at the time
    [t_sep = 2 m a^2 / pi] (about [5.8e-51] s) the array [psi] returns
    over the grid differs from that expansion, at the grid point of
    index 333, [a/3].  There the code's phases are [exp(-i n^2 pi hbar)],
    all but [1], and the sum is all but the initial wavefunction; the
    phases of the stated expansion are [exp(-i n^2 pi) = (-1)^n]. *)
Lemma psi_spec_refuted :
  psi x t_sep <> Some (map (fun xi => psi_spec xi t_sep) x).
Proof.
  rewrite psi_eval. intros E. apply Some_inj in E.
  assert (H : nth_error (map (fun xi => psi_sum xi t_sep) x) 333 =
              nth_error (map (fun xi => psi_spec xi t_sep) x) 333)
    by (rewrite E; reflexivity).
  rewrite !nth_error_map, grid_third in H. cbn [option_map] in H.
  apply Some_inj in H. apply psi_spec_neq_psi_sum. symmetry. exact H.
Qed.

(** C1, amended: for every array of points [xs] and every time [t],
    [psi] returns at every point the sum over [n] from 1 to [Nmax = 50]
    of [c_n sqrt(2/a) sin(n pi x / a) exp(-i E_n t / hbar)] with the
    energy [E_n = n^2 pi^2 hbar^2 / (2 m a^2)], that is with the phase
    [exp(-i n^2 pi^2 hbar t / (2 m a^2))]; the coefficients are the values
    [c_n] returns. *)
Theorem psi_truncated_expansion (xs : list R) (t : R) :
  (forall n, (1 <= n <= Nmax)%Z -> c_n n = Some (coef n)) /\
  psi xs t =
  Some (map (fun xi =>
          Csum (fun n =>
                  Cmult (RtoC (coef n * (sqrt (2 / a) * sin (IZR n * PI * xi / a))))
                        (expmi (IZR n ^ 2 * PI ^ 2 * hbar ^ 2 / (2 * m * a ^ 2)
                                * t / hbar)))
               50) xs).
Proof.
  split.
  - intros n Hn. apply c_n_coef. lia.
  - apply psi_eval.
Qed.

(** C2: for every integer mode index [n >= 1] other than 2, [c_n]
    returns the closed-form expression
    [(sqrt 2 / pi) (sin((2-n) pi/2)/(2-n) - sin((2+n) pi/2)/(2+n))]. *)
Theorem c_n_closed_form (n : Z) :
  (1 <= n)%Z -> n <> 2%Z ->
  c_n n =
  Some (sqrt 2 / PI *
        (sin ((2 - IZR n) * PI / 2) / (2 - IZR n)
         - sin ((2 + IZR n) * PI / 2) / (2 + IZR n))).
Proof.
  intros Hn H2. apply c_n_general; lia.
Qed.

Lemma c_n_closed_form_witness :
  c_n 3 =
  Some (sqrt 2 / PI *
        (sin ((2 - IZR 3) * PI / 2) / (2 - IZR 3)
         - sin ((2 + IZR 3) * PI / 2) / (2 + IZR 3))).
Proof. apply (c_n_closed_form 3); lia. Defined.

(** C3: [c_n 2] is [sqrt 2 / 2], and that value is the limit of the
    closed-form expression as the (real) index tends to 2. *)
Theorem c_n_two_is_limit :
  c_n 2 = Some (sqrt 2 / 2) /\
  limit1_in closed_form (fun n => n <> 2) (sqrt 2 / 2) 2.
Proof.
  split; [reflexivity | apply closed_form_limit].
Qed.

(** C4: at every time [t] the integral of [|psi(x, t)|^2] over the
    grid (trapezoid rule) is, in exact arithmetic, the sum of [c_n^2] for
    [n] from 1 to [Nmax], the same at every time, and that sum lies
    within [1e-5] below 1. *)
Theorem total_probability_conserved (t : R) :
  exists s,
    total_probability t = Some s /\
    s = Rsum (fun n => coef n * coef n) (Z.to_nat Nmax) /\
    1 - 1 / 100000 < s < 1.
Proof.
  exists (Rsum (fun n => coef n * coef n) 50).
  split; [apply total_probability_eval |].
  split; [reflexivity | apply coef_sq_sum_bounds].
Qed.

(** C5, amended: at every time [T] that is a whole number of
    fundamental periods [2 pi tau] the density over the grid is the
    density at time 0; no such time is the [t_max = 10 tau] of the
    script. *)
Theorem density_periodic (T : R) (k : Z) :
  T = IZR k * fundamental_period ->
  T <> t_max /\
  exists zs0 zsT,
    psi x 0 = Some zs0 /\ psi x T = Some zsT /\ abs_sq zsT = abs_sq zs0.
Proof.
  intros ->. split.
  - intros E. apply (t_max_not_multiple k). symmetry. exact E.
  - exists (map (fun xi => psi_sum xi 0) x).
    exists (map (fun xi => psi_sum xi (IZR k * fundamental_period)) x).
    rewrite !psi_eval. repeat split.
    f_equal. apply map_ext. intros xi.
    rewrite <- (psi_sum_periodic xi 0 k). f_equal. ring.
Qed.

Lemma density_periodic_witness :
  IZR 3 * fundamental_period <> t_max /\
  exists zs0 zsT,
    psi x 0 = Some zs0 /\ psi x (IZR 3 * fundamental_period) = Some zsT /\
    abs_sq zsT = abs_sq zs0.
Proof. apply (density_periodic (IZR 3 * fundamental_period) 3). reflexivity. Defined.

(** C6: every frame [update] computes is an array of non-negative
    reals, one per grid point, at every time [t]. *)
Theorem frame_values_nonneg (t : R) (p : plot) :
  exists p', update t p = Some p' /\
             length (ydata p') = length x /\
             Forall (fun y => 0 <= y) (ydata p').
Proof.
  rewrite update_eval. eexists. split; [reflexivity |]. cbn [ydata]. split.
  - unfold abs_sq. now rewrite !length_map.
  - apply abs_sq_nonneg.
Qed.

(** C7: the first element of [frames] is 0, and the density [init]
    computes is the density [update] computes at that element. *)
Theorem initial_frame_agrees (p : plot) :
  exists t0 q q',
    nth_error frames 0 = Some t0 /\ t0 = 0 /\
    init p = Some q /\ update t0 p = Some q' /\ ydata q = ydata q'.
Proof.
  exists 0. rewrite init_eval, update_eval. do 2 eexists.
  repeat split. apply frames_first.
Qed.

(** C8: for every integer [n >= 1] the evaluation of [c_n] divides by
    no zero and returns a value: off the branch [n = 2] both divisors,
    [2 - n] and [2 + n], are nonzero. *)
Theorem c_n_no_zero_division (n : Z) :
  (1 <= n)%Z ->
  (exists v, c_n n = Some v) /\
  (n <> 2%Z ->
   (2 - n <> 0)%Z /\ (2 + n <> 0)%Z /\
   checked_div (sin (IZR (2 - n) * PI / 2)) (2 - n) <> None /\
   checked_div (sin (IZR (2 + n) * PI / 2)) (2 + n) <> None).
Proof.
  intros Hn. split.
  - exists (coef n). apply c_n_coef, Hn.
  - intros H2. rewrite !checked_div_nonzero by lia.
    repeat split; try lia; discriminate.
Qed.

Lemma c_n_no_zero_division_witness :
  (exists v, c_n 1 = Some v) /\
  (1%Z <> 2%Z ->
   (2 - 1 <> 0)%Z /\ (2 + 1 <> 0)%Z /\
   checked_div (sin (IZR (2 - 1) * PI / 2)) (2 - 1) <> None /\
   checked_div (sin (IZR (2 + 1) * PI / 2)) (2 + 1) <> None).
Proof. apply (c_n_no_zero_division 1). lia. Defined.

(** C9: for every even integer [n >= 4] the coefficient is zero. *)
Theorem c_n_even_vanishes (n : Z) :
  (4 <= n)%Z -> Z.even n = true -> c_n n = Some 0.
Proof.
  intros Hn He. rewrite c_n_general by lia. f_equal.
  apply Z.even_spec in He. destruct He as [k ->].
  apply closed_form_even.
Qed.

Lemma c_n_even_vanishes_witness : c_n 4 = Some 0.
Proof. apply (c_n_even_vanishes 4); [lia | reflexivity]. Defined.

(** C10: at every time the wavefunction vanishes at both walls: [psi]
    returns zero at [x = 0] and at [x = a], which are the first and the
    last point of the grid. *)
Theorem psi_vanishes_at_walls (t : R) :
  psi [0; a] t = Some [C0; C0] /\
  nth_error x 0 = Some 0 /\ nth_error x 999 = Some a /\
  exists zs, psi x t = Some zs /\
             nth_error zs 0 = Some C0 /\ nth_error zs 999 = Some C0.
Proof.
  split; [| split; [apply grid_first | split; [apply grid_last |]]].
  - rewrite psi_eval. cbn [map].
    rewrite !psi_sum_walls by auto. reflexivity.
  - exists (map (fun xi => psi_sum xi t) x). split; [apply psi_eval |].
    rewrite !nth_error_map, grid_first, grid_last. cbn [option_map].
    rewrite !psi_sum_walls by auto. split; reflexivity.
Qed.

End Claims.

(** * Further properties of the coefficient generator *)

Section CoefficientFacts.

Lemma sin_odd_half_PI (k : Z) :
  sin (IZR (2 * k + 1) * PI / 2) = if Z.even k then 1 else -1.
Proof.
  replace (IZR (2 * k + 1) * PI / 2) with (IZR k * PI + PI / 2)
    by (rewrite plus_IZR, mult_IZR; field).
  rewrite sin_plus, sin_Z_PI, cos_PI2, sin_PI2, cos_Z_PI.
  destruct (Z.even k); ring.
Qed.

Lemma odd_not_pm2 (k : Z) : IZR (2 * k + 1) <> 2 /\ IZR (2 * k + 1) <> -2.
Proof. split; intros E; apply eq_IZR in E; lia. Qed.

Lemma odd_denominator (k : Z) : 4 - IZR (2 * k + 1) * IZR (2 * k + 1) <> 0.
Proof.
  destruct (odd_not_pm2 k) as [H2 Hm2]. intros E.
  assert (E' : (2 - IZR (2 * k + 1)) * (2 + IZR (2 * k + 1)) = 0) by lra.
  apply Rmult_integral in E'. lra.
Qed.

(** X1: at every odd index [n = 2k + 1], positive or negative, [c_n]
    returns [(-1)^k 4 sqrt 2 / (pi (4 - n^2))]: the two fractions of the
    closed form combine, and the sine is [(-1)^k]. *)
Theorem c_n_odd (k : Z) :
  c_n (2 * k + 1) =
  Some ((if Z.even k then 1 else -1)
        * (4 * sqrt 2 / (PI * (4 - IZR (2 * k + 1) * IZR (2 * k + 1))))).
Proof.
  destruct (odd_not_pm2 k) as [H2 Hm2].
  rewrite c_n_general by lia. f_equal.
  rewrite closed_form_single by assumption.
  rewrite sin_odd_half_PI.
  assert (Hd := odd_denominator k). assert (HPI := PI_RGT_0).
  destruct (Z.even k); field; split; lra.
Qed.

(** X2: over all the integers, [c_n] divides by zero at [n = -2] and
    nowhere else. *)
Theorem c_n_fails_only_at_minus_2 (n : Z) : c_n n = None <-> n = (-2)%Z.
Proof.
  split.
  - intros Hnone. destruct (Z.eq_dec n (-2)) as [E | NE]; [exact E |].
    destruct (Z.eq_dec n 2) as [E2 | NE2].
    + subst n. discriminate Hnone.
    + rewrite c_n_general in Hnone by assumption. discriminate Hnone.
  - intros ->. apply c_n_minus_2.
Qed.


(** X4: from the third mode on the coefficients decay like [1/n^2]:
    [|c_n| <= 4 sqrt 2 / (pi (n^2 - 4))]. *)
Theorem c_n_decay (n : Z) :
  (3 <= n)%Z ->
  exists v, c_n n = Some v /\
            Rabs v <= 4 * sqrt 2 / (PI * (IZR n * IZR n - 4)).
Proof.
  intros Hn. exists (coef n). split; [apply c_n_coef; lia |].
  eapply Rle_trans; [apply coef_bound; exact Hn |].
  assert (Hr : 3 <= IZR n) by (apply IZR_le; exact Hn).
  assert (HPI := PI_RGT_0).
  apply Req_le. field. split; nra.
Qed.

Lemma c_n_decay_witness :
  exists v, c_n 5 = Some v /\ Rabs v <= 4 * sqrt 2 / (PI * (IZR 5 * IZR 5 - 4)).
Proof. apply (c_n_decay 5). lia. Defined.

End CoefficientFacts.

(** * Further properties of the wavefunction evaluator *)

Section EvaluatorFacts.

(** X5: on any array of points, at any time, [psi] returns an array of
    the same length; on the empty array it returns the empty array. *)
Theorem psi_shape (xs : list R) (t : R) :
  (exists zs, psi xs t = Some zs /\ length zs = length xs) /\
  psi [] t = Some [].
Proof.
  split.
  - exists (map (fun xi => psi_sum xi t) xs). split; [apply psi_eval |].
    apply length_map.
  - rewrite psi_eval. reflexivity.
Qed.

(** X6: [psi] acts point by point: on two arrays laid end to end it
    returns the two results laid end to end. *)
Theorem psi_elementwise (xs ys : list R) (t : R) :
  exists us vs,
    psi xs t = Some us /\ psi ys t = Some vs /\
    psi (xs ++ ys) t = Some (us ++ vs).
Proof.
  exists (map (fun xi => psi_sum xi t) xs), (map (fun xi => psi_sum xi t) ys).
  rewrite !psi_eval, map_app. repeat split.
Qed.

Lemma Im_Csum_zero (f : Z -> C) (N : nat) :
  (forall n, Im (f n) = 0) -> Im (Csum f N) = 0.
Proof.
  intros H. rewrite Im_Csum. rewrite (Rsum_ext _ (fun _ => 0)).
  - apply Rsum_const_zero.
  - intros n _. apply H.
Qed.

(** X7: at time 0 every value [psi] returns is real: its imaginary
    part is zero. *)
Theorem psi_initially_real (xs : list R) :
  exists zs, psi xs 0 = Some zs /\ Forall (fun z => Im z = 0) zs.
Proof.
  exists (map (fun xi => psi_sum xi 0) xs). split; [apply psi_eval |].
  apply Forall_forall. intros z Hz. apply in_map_iff in Hz.
  destruct Hz as [xi [<- _]]. unfold psi_sum. apply Im_Csum_zero. intros n.
  rewrite Im_summand.
  replace (E_n n * 0 / hbar) with 0 by (unfold Rdiv; ring).
  rewrite sin_0. ring.
Qed.

(** X8: [psi] is periodic in time with period [2 pi tau], from any
    time on. *)
Theorem psi_time_periodic (xs : list R) (t : R) (k : Z) :
  psi xs (t + IZR k * fundamental_period) = psi xs t.
Proof.
  rewrite !psi_eval. f_equal. apply map_ext. intros xi.
  apply psi_sum_periodic.
Qed.

Lemma Cconj_Csum (f : Z -> C) (N : nat) :
  Cconj (Csum f N) = Csum (fun n => Cconj (f n)) N.
Proof.
  induction N as [| N IH]; cbn [Csum].
  - unfold Cconj, C0, Re, Im; cbn [fst snd]. f_equal. ring.
  - rewrite <- IH. unfold Cconj, Cplus, Re, Im; cbn [fst snd]. f_equal. ring.
Qed.

Lemma Cconj_summand (b theta : R) :
  Cconj (Cmult (RtoC b) (expmi theta)) = Cmult (RtoC b) (expmi (- theta)).
Proof.
  rewrite !expmi_eq, cos_neg, sin_neg.
  unfold Cconj, Cmult, RtoC, Re, Im; cbn [fst snd]. f_equal; ring.
Qed.

Lemma psi_sum_reversed (x0 t : R) : psi_sum x0 (- t) = Cconj (psi_sum x0 t).
Proof.
  unfold psi_sum. rewrite Cconj_Csum. apply Csum_ext. intros n _.
  rewrite Cconj_summand. do 2 f_equal. unfold Rdiv. ring.
Qed.

Lemma Cabs_Cconj (z : C) : Cabs (Cconj z) = Cabs z.
Proof.
  unfold Cabs, Cconj, Re, Im; cbn [fst snd]. f_equal. ring.
Qed.

(** X9: reversing the time conjugates the values [psi] returns, and so
    leaves the density unchanged. *)
Theorem psi_time_reversal (xs : list R) (t : R) :
  exists zs,
    psi xs t = Some zs /\ psi xs (- t) = Some (map Cconj zs) /\
    abs_sq (map Cconj zs) = abs_sq zs.
Proof.
  exists (map (fun xi => psi_sum xi t) xs). rewrite !psi_eval.
  split; [reflexivity |]. split.
  - f_equal. rewrite map_map. apply map_ext. intros xi. apply psi_sum_reversed.
  - unfold abs_sq. rewrite map_map. apply map_ext. intros z.
    now rewrite Cabs_Cconj.
Qed.

Lemma phi_odd (n : Z) (x0 : R) : phi n (- x0) = - phi n x0.
Proof.
  unfold phi. replace (IZR n * PI * - x0 / a) with (- (IZR n * PI * x0 / a))
    by (unfold Rdiv; ring).
  rewrite sin_neg. ring.
Qed.

Lemma phi_periodic (n : Z) (x0 : R) : phi n (x0 + 2 * a) = phi n x0.
Proof.
  unfold phi. f_equal.
  replace (IZR n * PI * (x0 + 2 * a) / a)
    with (IZR n * PI * x0 / a + 2 * IZR n * PI)
    by (field; generalize a_pos; lra).
  apply sin_period_Z.
Qed.

Lemma Copp_Csum (f : Z -> C) (N : nat) :
  Copp (Csum f N) = Csum (fun n => Copp (f n)) N.
Proof.
  induction N as [| N IH]; cbn [Csum].
  - unfold Copp, C0, Re, Im; cbn [fst snd]. f_equal; ring.
  - rewrite <- IH. unfold Copp, Cplus, Re, Im; cbn [fst snd]. f_equal; ring.
Qed.

Lemma psi_sum_odd (x0 t : R) : psi_sum (- x0) t = Copp (psi_sum x0 t).
Proof.
  unfold psi_sum. rewrite Copp_Csum. apply Csum_ext. intros n _.
  rewrite phi_odd. unfold Copp, Cmult, RtoC, Re, Im; cbn [fst snd].
  f_equal; ring.
Qed.

Lemma psi_sum_space_periodic (x0 t : R) : psi_sum (x0 + 2 * a) t = psi_sum x0 t.
Proof.
  unfold psi_sum. apply Csum_ext. intros n _. now rewrite phi_periodic.
Qed.

(** X10: beyond the box [psi] continues the wavefunction as an odd
    function of period [2 a]: negating the points negates the values,
    and shifting them by [2 a] changes nothing. *)
Theorem psi_space_symmetry (xs : list R) (t : R) :
  exists zs,
    psi xs t = Some zs /\
    psi (map Ropp xs) t = Some (map Copp zs) /\
    psi (map (fun xi => xi + 2 * a) xs) t = Some zs.
Proof.
  exists (map (fun xi => psi_sum xi t) xs). rewrite !psi_eval.
  split; [reflexivity |]. split; f_equal; rewrite !map_map; apply map_ext;
    intros xi; [apply psi_sum_odd | apply psi_sum_space_periodic].
Qed.

(** X11: the phase factor of every mode has modulus 1 at every time,
    and is 1 at time 0. *)
Theorem phase_unit (n : Z) (t : R) :
  Cabs (phase n t) = 1 /\ phase n 0 = RtoC 1.
Proof.
  split.
  - rewrite phase_eq, expmi_eq. unfold Cabs, Re, Im; cbn [fst snd].
    replace (cos _ * cos _ + - sin _ * - sin _) with 1.
    + apply sqrt_1.
    + match goal with |- 1 = cos ?u * _ + _ => generalize (sin2_cos2 u) end.
      unfold Rsqr. lra.
  - rewrite phase_eq, expmi_eq.
    replace (IZR n ^ 2 * PI ^ 2 * hbar * 0 / (2 * m * a ^ 2)) with 0
      by (unfold Rdiv; ring).
    rewrite cos_0, sin_0. unfold RtoC. f_equal. ring.
Qed.

(** X12: in units of the characteristic time [tau] the phase of the
    [n]-th mode is [exp(-i n^2 t / tau)]: [tau] is the time over which
    the ground-state phase turns by one radian. *)
Theorem phase_in_units_of_tau (n : Z) (t : R) :
  phase n t = expmi (IZR n ^ 2 * (t / tau)).
Proof.
  rewrite phase_eq. f_equal. unfold tau.
  generalize m_pos a_pos hbar_pos PI_RGT_0; intros Hm Ha Hh HP.
  field. repeat split; lra.
Qed.

End EvaluatorFacts.

(** * Bounds, the grid, the frame times and the axis limits *)

Section PlotFacts.

(** ** Samples of [np.linspace] *)

Lemma linspace_sorted (start stop : R) (num i j : nat) (u v : R) :
  start < stop -> (i < j < num)%nat ->
  nth_error (linspace start stop num) i = Some u ->
  nth_error (linspace start stop num) j = Some v ->
  start <= u /\ u < v /\ v <= stop.
Proof.
  intros Hlt Hij Hu Hv.
  rewrite linspace_nth in Hu by lia. rewrite linspace_nth in Hv by lia.
  apply Some_inj in Hu. apply Some_inj in Hv. subst u v.
  assert (Hn : 0 < INR (num - 1)) by (apply lt_0_INR; lia).
  assert (Hh : 0 < (stop - start) / INR (num - 1)).
  { apply Rdiv_lt_0_compat; lra. }
  assert (Hi : 0 <= INR i) by apply pos_INR.
  assert (Hij' : INR i < INR j) by (apply lt_INR; lia).
  assert (Hj : INR j <= INR (num - 1)) by (apply le_INR; lia).
  set (h := (stop - start) / INR (num - 1)) in *.
  assert (Hfull : INR (num - 1) * h = stop - start).
  { unfold h. field. lra. }
  repeat split; nra.
Qed.

(** ** A bound on the modulus of the expansion *)

Lemma Rsum_Rabs_nonneg (f : Z -> R) (N : nat) : 0 <= Rsum (fun n => Rabs (f n)) N.
Proof.
  induction N as [| N IH]; cbn [Rsum]; [lra |].
  generalize (Rabs_pos (f (Z.of_nat (S N)))); lra.
Qed.

Lemma Rsum_le (f g : Z -> R) (N : nat) :
  (forall n, (1 <= n <= Z.of_nat N)%Z -> f n <= g n) -> Rsum f N <= Rsum g N.
Proof.
  induction N as [| N IH]; intros H; cbn [Rsum]; [lra |].
  assert (H1 : Rsum f N <= Rsum g N) by (apply IH; intros n Hn; apply H; lia).
  assert (H2 := H (Z.of_nat (S N)) ltac:(lia)). lra.
Qed.

(** The squared modulus of a sum of phases with real amplitudes is at
    most the square of the sum of the absolute amplitudes. *)
Lemma Csum_modulus_bound (b theta : Z -> R) (N : nat) :
  let z := Csum (fun n => Cmult (RtoC (b n)) (expmi (theta n))) N in
  let tot := Rsum (fun n => Rabs (b n)) N in
  Re z * Re z + Im z * Im z <= tot * tot.
Proof.
  induction N as [| N IH]; cbn zeta in *; cbn [Csum Rsum].
  - unfold C0, Re, Im; cbn [fst snd]. lra.
  - set (z := Csum _ N) in *. set (tot := Rsum _ N) in *.
    assert (HS : 0 <= tot) by apply Rsum_Rabs_nonneg.
    rewrite expmi_eq.
    unfold Cplus, Cmult, RtoC, Re, Im; cbn [fst snd].
    fold (Re z) (Im z).
    set (c := cos (theta (Z.of_nat (S N)))).
    set (s := sin (theta (Z.of_nat (S N)))).
    set (bn := b (Z.of_nat (S N))).
    assert (Hcs : s * s + c * c = 1).
    { exact (sin2_cos2 (theta (Z.of_nat (S N)))). }
    set (q := Re z * c - Im z * s).
    assert (Hq : q * q <= tot * tot).
    { unfold q.
      assert (Hlag : (Re z * c - Im z * s) * (Re z * c - Im z * s)
                     + (Re z * s + Im z * c) * (Re z * s + Im z * c)
                     = (Re z * Re z + Im z * Im z) * (s * s + c * c)) by ring.
      rewrite Hcs in Hlag.
      assert (Hsq : 0 <= (Re z * s + Im z * c) * (Re z * s + Im z * c))
        by apply Rle_0_sqr.
      lra. }
    assert (Hqa : Rabs q <= tot).
    { apply Rsqr_le_abs_0 in Hq. rewrite (Rabs_pos_eq tot) in Hq by exact HS.
      exact Hq. }
    assert (Hbq : bn * q <= Rabs bn * tot).
    { eapply Rle_trans; [apply Rle_abs |]. rewrite Rabs_mult.
      apply Rmult_le_compat_l; [apply Rabs_pos | exact Hqa]. }
    assert (Hb2 : Rabs bn * Rabs bn = bn * bn).
    { rewrite <- Rabs_mult. apply Rabs_pos_eq. nra. }
    replace ((Re z + (bn * c - 0 * - s)) * (Re z + (bn * c - 0 * - s))
             + (Im z + (bn * - s + 0 * c)) * (Im z + (bn * - s + 0 * c)))
      with (Re z * Re z + Im z * Im z + 2 * (bn * q) + bn * bn * (s * s + c * c))
      by (unfold q; ring).
    rewrite Hcs. nra.
Qed.

(** A sum whose terms from the fifth on are dominated by the steps of
    [tele]. *)
Lemma Rsum_tail_upper (f : Z -> R) (c : R) :
  (forall n, (5 <= n)%Z -> f n <= c * (tele (IZR n) - tele (IZR n + 1))) ->
  forall k,
  Rsum f (4 + k) <=
  f 1%Z + f 2%Z + f 3%Z + f 4%Z + c * (tele 5 - tele (IZR (Z.of_nat (5 + k)))).
Proof.
  intros Hf. induction k as [| k IH].
  - cbn [Nat.add Rsum Z.of_nat Pos.of_succ_nat Pos.succ]. lra.
  - replace (4 + S k)%nat with (S (4 + k)) by lia. cbn [Rsum].
    assert (Hb := Hf (Z.of_nat (S (4 + k))) ltac:(lia)).
    replace (Z.of_nat (5 + S k)) with (Z.of_nat (S (4 + k)) + 1)%Z by lia.
    rewrite plus_IZR.
    replace (Z.of_nat (5 + k)) with (Z.of_nat (S (4 + k))) in IH by lia.
    lra.
Qed.

Lemma sqrt2_upper : sqrt 2 < 1.4143.
Proof.
  assert (H0 := sqrt2_pos). assert (H1 := sqrt2_sq). nra.
Qed.

Lemma coef_1 : coef 1 = sqrt 2 / PI * (4 / 3).
Proof.
  unfold coef. cbn [Z.eqb Pos.eqb]. rewrite closed_form_single by lra.
  replace (1 * PI / 2) with (PI / 2) by field. rewrite sin_PI2. field.
  generalize PI_RGT_0; lra.
Qed.

Lemma coef_4 : coef 4 = 0.
Proof.
  unfold coef. cbn [Z.eqb Pos.eqb]. change 4 with (IZR (2 * 2)).
  apply closed_form_even.
Qed.

(** The absolute coefficients of the fifty modes add up to less than
    [21/10]. *)
Lemma coef_abs_sum : Rsum (fun n => Rabs (coef n)) 50 <= 21 / 10.
Proof.
  change 50%nat with (4 + 46)%nat.
  eapply Rle_trans.
  { apply (Rsum_tail_upper _ (sqrt 2 / PI)). intros n Hn.
    assert (Hr : 5 <= IZR n) by (apply IZR_le; exact Hn).
    rewrite tele_step by lra. apply coef_bound. lia. }
  cbv beta.
  assert (H3 := coef_bound 3 ltac:(lia)).
  rewrite coef_1, coef_4. change (coef 2) with (sqrt 2 / 2).
  rewrite Rabs_R0, tele_5.
  assert (Hs := sqrt2_pos). assert (Hs' := sqrt2_upper).
  assert (HP := PI_bounds).
  assert (Hq : 0 < sqrt 2 / PI) by (apply Rdiv_lt_0_compat; lra).
  assert (Hq' : sqrt 2 / PI < 0.4502).
  { apply Rmult_lt_reg_r with PI; [lra |].
    replace (sqrt 2 / PI * PI) with (sqrt 2) by (field; lra). nra. }
  rewrite (Rabs_pos_eq (sqrt 2 / PI * (4 / 3))) by nra.
  rewrite (Rabs_pos_eq (sqrt 2 / 2)) by lra.
  assert (Ht : 0 < tele (IZR (Z.of_nat (5 + 46)))).
  { apply tele_pos. replace (Z.of_nat (5 + 46)) with 51%Z by reflexivity. lra. }
  replace (3 * 3 - 4) with 5 in H3 by ring.
  nra.
Qed.

(** The density is at most [9 / a], wherever and whenever. *)
Lemma density_bound (x0 t : R) : Cabs (psi_sum x0 t) ^ 2 <= 9 / a.
Proof.
  rewrite Cabs_sq. unfold psi_sum. change (Z.to_nat Nmax) with 50%nat.
  eapply Rle_trans;
    [apply (Csum_modulus_bound (fun n => coef n * phi n x0)
                               (fun n => E_n n * t / hbar) 50) |].
  assert (Hs := sqrt_2a_pos).
  assert (Hle : Rsum (fun n => Rabs (coef n * phi n x0)) 50
                <= sqrt (2 / a) * (21 / 10)).
  { eapply Rle_trans; [| apply Rmult_le_compat_l; [lra | apply coef_abs_sum]].
    rewrite Rsum_scal. apply Rsum_le. intros n _.
    rewrite Rabs_mult, Rmult_comm.
    apply Rmult_le_compat_r; [apply Rabs_pos | apply phi_bound]. }
  assert (H0 := Rsum_Rabs_nonneg (fun n => coef n * phi n x0) 50).
  assert (Hsq : sqrt (2 / a) * sqrt (2 / a) = 2 / a).
  { apply sqrt_sqrt. apply Rlt_le, Rdiv_lt_0_compat; [lra | apply a_pos]. }
  set (tot := Rsum _ 50) in *.
  assert (HSS : tot * tot <= sqrt (2 / a) * (21 / 10) * (sqrt (2 / a) * (21 / 10))).
  { apply Rmult_le_compat; lra. }
  replace (sqrt (2 / a) * (21 / 10) * (sqrt (2 / a) * (21 / 10)))
    with (sqrt (2 / a) * sqrt (2 / a) * (441 / 100)) in HSS by field.
  rewrite Hsq in HSS.
  assert (Ha := a_pos).
  assert (Hfin : 2 / a * (441 / 100) <= 9 / a).
  { apply Rmult_le_reg_r with a; [exact Ha |].
    replace (2 / a * (441 / 100) * a) with (882 / 100) by (field; lra).
    replace (9 / a * a) with 9 by (field; lra). lra. }
  lra.
Qed.

(** X13: at every time, every value of the frame [update] computes is
    at most [9 / a]. *)
Theorem frame_values_bounded (t : R) (p : plot) :
  exists p', update t p = Some p' /\
             Forall (fun y => y <= 9 / a) (ydata p').
Proof.
  rewrite update_eval. eexists. split; [reflexivity |]. cbn [ydata].
  unfold abs_sq. rewrite map_map. apply Forall_forall. intros y Hy.
  apply in_map_iff in Hy. destruct Hy as [xi [<- _]]. apply density_bound.
Qed.

(** X14: the spatial grid has 1000 points, strictly increasing, all
    within [[0, a]]. *)
Theorem grid_sorted :
  length x = 1000%nat /\
  forall i j u v,
    (i < j)%nat -> nth_error x i = Some u -> nth_error x j = Some v ->
    0 <= u /\ u < v /\ v <= a.
Proof.
  split; [apply linspace_length |].
  intros i j u v Hij Hu Hv.
  assert (Hj : (j < 1000)%nat).
  { rewrite <- (linspace_length 0 a 1000). apply nth_error_Some.
    unfold x in Hv. rewrite Hv. discriminate. }
  apply (linspace_sorted 0 a 1000 i j); try assumption.
  - apply a_pos.
  - lia.
Qed.

Lemma t_max_pos : 0 < t_max.
Proof. unfold t_max. generalize tau_pos; lra. Qed.

(** X15: the frame times are 200 instants, strictly increasing, all
    within [[0, t_max]], the last one being [t_max]. *)
Theorem frames_sorted :
  length frames = 200%nat /\
  nth_error frames 199 = Some t_max /\
  forall i j u v,
    (i < j)%nat -> nth_error frames i = Some u -> nth_error frames j = Some v ->
    0 <= u /\ u < v /\ v <= t_max.
Proof.
  split; [apply linspace_length |].
  split; [apply (linspace_last 0 t_max 200); lia |].
  intros i j u v Hij Hu Hv.
  assert (Hj : (j < 200)%nat).
  { rewrite <- (linspace_length 0 t_max 200). apply nth_error_Some.
    unfold frames in Hv. rewrite Hv. discriminate. }
  apply (linspace_sorted 0 t_max 200 i j); try assumption.
  - apply t_max_pos.
  - lia.
Qed.

(** ** The limits of the y-axis *)

Lemma fold_left_Rmax_ge (l : list R) (y : R) :
  y <= fold_left Rmax l y /\ forall z, In z l -> z <= fold_left Rmax l y.
Proof.
  revert y. induction l as [| w l IH]; intros y; cbn [fold_left].
  - split; [lra | intros z []].
  - destruct (IH (Rmax y w)) as [H1 H2]. split.
    + eapply Rle_trans; [apply Rmax_l | exact H1].
    + intros z [<- | Hz].
      * eapply Rle_trans; [apply Rmax_r | exact H1].
      * apply H2, Hz.
Qed.

Lemma array_max_upper (ys : list R) :
  ys <> [] ->
  exists top, array_max ys = Some top /\ forall y, In y ys -> y <= top.
Proof.
  destruct ys as [| y ys']; [congruence |]. intros _.
  exists (fold_left Rmax ys' y). split; [reflexivity |].
  destruct (fold_left_Rmax_ge ys' y) as [H1 H2].
  intros z [<- | Hz]; [exact H1 | apply H2, Hz].
Qed.

Lemma Rsum_opp (f : Z -> R) (N : nat) :
  Rsum (fun n => - f n) N = - Rsum f N.
Proof.
  induction N as [| N IH]; cbn [Rsum]; [ring | rewrite IH; ring].
Qed.

Lemma second_summand_nonneg : 0 <= coef 2 * phi 2 (a / 3).
Proof.
  change (coef 2) with (sqrt 2 / 2). unfold phi.
  replace (2 * PI * (a / 3) / a) with (2 * (PI / 3))
    by (field; generalize a_pos; lra).
  rewrite sin_2PI3.
  assert (H1 := sqrt2_pos). assert (H2 := sqrt_2a_pos). assert (H3 := sqrt3_lower).
  assert (0 < sqrt 2 / 2 * (sqrt (2 / a) * (sqrt 3 / 2))); [| lra].
  apply Rmult_lt_0_compat; [lra |]. apply Rmult_lt_0_compat; lra.
Qed.

Lemma third_mode_node : phi 3 (a / 3) = 0.
Proof.
  unfold phi.
  replace (3 * PI * (a / 3) / a) with PI by (field; generalize a_pos; lra).
  rewrite sin_PI. ring.
Qed.

(** At time 0 the expansion is positive at the grid point [a/3]. *)
Lemma psi_initial_third_pos : 0 < Re (psi_sum (a / 3) 0).
Proof.
  unfold psi_sum. rewrite Re_Csum. change (Z.to_nat Nmax) with (4 + 46)%nat.
  rewrite (Rsum_ext _ (fun n => coef n * phi n (a / 3))).
  2:{ intros n _. rewrite Re_summand.
      replace (E_n n * 0 / hbar) with 0 by (unfold Rdiv; ring).
      rewrite cos_0. ring. }
  assert (Hup := Rsum_tail_upper (fun n => - (coef n * phi n (a / 3))) amp).
  assert (Hstep : forall n, (5 <= n)%Z ->
            - (coef n * phi n (a / 3)) <= amp * (tele (IZR n) - tele (IZR n + 1))).
  { intros n Hn.
    assert (Hr : 5 <= IZR n) by (apply IZR_le; exact Hn).
    rewrite tele_step by lra.
    assert (Hc := coef_bound n ltac:(lia)).
    assert (Hp := phi_bound n (a / 3)).
    assert (Hd : 0 < IZR n * IZR n - 4) by nra.
    assert (Hf : 0 < 4 / (IZR n * IZR n - 4)) by (apply Rdiv_lt_0_compat; lra).
    assert (Hq : 0 < sqrt 2 / PI).
    { apply Rdiv_lt_0_compat; [apply sqrt2_pos | apply PI_RGT_0]. }
    eapply Rle_trans; [apply Rle_abs |]. rewrite Rabs_Ropp, Rabs_mult.
    unfold amp.
    replace (sqrt 2 / PI * sqrt (2 / a) * (4 / (IZR n * IZR n - 4)))
      with (sqrt 2 / PI * (4 / (IZR n * IZR n - 4)) * sqrt (2 / a)) by ring.
    apply Rmult_le_compat; try apply Rabs_pos; assumption. }
  specialize (Hup Hstep 46%nat). cbv beta in Hup.
  rewrite Rsum_opp in Hup.
  rewrite first_summand, third_mode_node, coef_4, tele_5 in Hup.
  assert (H2 := second_summand_nonneg).
  assert (Ht : 0 < tele (IZR (Z.of_nat (5 + 46)))).
  { apply tele_pos. replace (Z.of_nat (5 + 46)) with 51%Z by reflexivity. lra. }
  generalize amp_pos sqrt3_lower; intros Ha Hs. nra.
Qed.

(** X16: the upper limit of the y-axis, [1.4] times the largest value
    of the initial curve, is strictly positive, and the whole initial
    curve lies between the two limits. *)
Theorem ylim_encloses_initial_curve :
  exists ys top,
    y0 = Some ys /\ array_max ys = Some top /\
    ylim = Some (0, top * 1.4) /\
    0 < top /\
    Forall (fun y => 0 <= y <= top * 1.4) ys.
Proof.
  set (ys := abs_sq (map (fun xi => psi_sum xi 0) x)).
  assert (Hy0 : y0 = Some ys) by (unfold y0; rewrite psi_eval; reflexivity).
  assert (Hne : ys <> []).
  { intros E. apply (f_equal (@length R)) in E. unfold ys, abs_sq in E.
    rewrite !length_map in E. unfold x in E. rewrite linspace_length in E.
    discriminate E. }
  destruct (array_max_upper ys Hne) as [top [Htop Hle]].
  exists ys, top. split; [exact Hy0 |]. split; [exact Htop |].
  split; [unfold ylim; rewrite Hy0; cbn [bind]; rewrite Htop; reflexivity |].
  assert (Hin : In (Cabs (psi_sum (a / 3) 0) ^ 2) ys).
  { unfold ys, abs_sq. rewrite map_map. apply in_map_iff. exists (a / 3).
    split; [reflexivity |]. apply (nth_error_In _ 333). apply grid_third. }
  assert (Hpos : 0 < top).
  { eapply Rlt_le_trans; [| apply Hle, Hin]. rewrite Cabs_sq.
    assert (H := psi_initial_third_pos). nra. }
  split; [exact Hpos |].
  apply Forall_forall. intros y Hy. split.
  - unfold ys in Hy. generalize (abs_sq_nonneg (map (fun xi => psi_sum xi 0) x)).
    rewrite Forall_forall. intros H. apply H, Hy.
  - specialize (Hle y Hy). lra.
Qed.

End PlotFacts.

(** * The density after ten characteristic times *)

Section Recurrence.

(** The sum of cosines over the grid, for any multiple below [2 N]. *)
Lemma cos_sum_grid (p : Z) (N : nat) :
  (- (2 * Z.of_nat N) < p < 2 * Z.of_nat N)%Z ->
  Rsum (fun j => cos (IZR j * (IZR p * PI / INR N))) N =
  if (p =? 0)%Z then INR N else if Z.even p then 0 else -1.
Proof.
  intros Hp. destruct (Z.eqb_spec p 0) as [-> | Hnz].
  - apply cos_sum_grid_zero.
  - destruct (Z_lt_le_dec 0 p) as [Hpos | Hneg].
    + apply cos_sum_grid_pos. lia.
    + replace p with (- (- p))%Z by lia.
      rewrite cos_sum_grid_neg, Z.even_opp, Z.even_opp.
      rewrite cos_sum_grid_pos by lia. now rewrite Z.even_opp.
Qed.

Lemma sin_sin_cos (A B D : R) :
  sin A * sin B * cos D =
  / 4 * cos (A - B - D) + / 4 * cos (A - B + D)
  + - / 4 * cos (A + B - D) + - / 4 * cos (A + B + D).
Proof.
  rewrite (cos_minus (A - B)), (cos_plus (A - B)),
          (cos_minus (A + B)), (cos_plus (A + B)).
  rewrite cos_minus, cos_plus. field.
Qed.

(** Against the first cosine of the grid the sines of two modes pair up
    only when the modes are adjacent. *)
Lemma sin_sin_cos_grid (n k : Z) (N : nat) :
  (0 < n < Z.of_nat N)%Z -> (0 < k < Z.of_nat N)%Z ->
  Rsum (fun j => sin (IZR j * (IZR n * PI / INR N))
                 * sin (IZR j * (IZR k * PI / INR N))
                 * cos (IZR j * (IZR 1 * PI / INR N))) N =
  INR N / 4 * adjacent n k.
Proof.
  intros Hn Hk.
  assert (HN : 0 < INR N) by (apply lt_0_INR; lia).
  rewrite (Rsum_ext _
    (fun j => / 4 * cos (IZR j * (IZR (n - k - 1) * PI / INR N))
              + / 4 * cos (IZR j * (IZR (n - k + 1) * PI / INR N))
              + - / 4 * cos (IZR j * (IZR (n + k - 1) * PI / INR N))
              + - / 4 * cos (IZR j * (IZR (n + k + 1) * PI / INR N)))).
  2:{ intros j _. rewrite sin_sin_cos.
      rewrite !minus_IZR, !plus_IZR, !minus_IZR.
      set (A := IZR j * (IZR n * PI / INR N)).
      set (B := IZR j * (IZR k * PI / INR N)).
      set (D := IZR j * (1 * PI / INR N)).
      replace (IZR j * ((IZR n - IZR k - 1) * PI / INR N)) with (A - B - D)
        by (unfold A, B, D; field; lra).
      replace (IZR j * ((IZR n - IZR k + 1) * PI / INR N)) with (A - B + D)
        by (unfold A, B, D; field; lra).
      replace (IZR j * ((IZR n + IZR k - 1) * PI / INR N)) with (A + B - D)
        by (unfold A, B, D; field; lra).
      replace (IZR j * ((IZR n + IZR k + 1) * PI / INR N)) with (A + B + D)
        by (unfold A, B, D; field; lra).
      reflexivity. }
  rewrite <- !Rsum_plus, <- !Rsum_scal.
  rewrite !cos_sum_grid by lia.
  unfold adjacent.
  assert (E1 : Z.even (n - k + 1) = Z.even (n - k - 1)).
  { repeat (rewrite Z.even_add || rewrite Z.even_sub). cbn [Z.even].
    destruct (Z.even n), (Z.even k); reflexivity. }
  assert (E2 : Z.even (n + k - 1) = Z.even (n - k - 1)).
  { repeat (rewrite Z.even_add || rewrite Z.even_sub). cbn [Z.even].
    destruct (Z.even n), (Z.even k); reflexivity. }
  assert (E3 : Z.even (n + k + 1) = Z.even (n - k - 1)).
  { repeat (rewrite Z.even_add || rewrite Z.even_sub). cbn [Z.even].
    destruct (Z.even n), (Z.even k); reflexivity. }
  rewrite E1, E2, E3.
  destruct (Z.eqb_spec (n + k - 1) 0) as [F | _]; [lia |].
  destruct (Z.eqb_spec (n + k + 1) 0) as [F | _]; [lia |].
  destruct (Z.eqb_spec (n - k - 1) 0) as [Ea | Na];
  destruct (Z.eqb_spec (n - k + 1) 0) as [Eb | Nb];
  destruct (Z.eqb_spec (n - k) 1) as [Ec | Nc];
  destruct (Z.eqb_spec (k - n) 1) as [Ed | Nd]; try lia.
  - replace (n - k - 1)%Z with 0%Z by lia. cbn [Z.even]. field.
  - replace (n - k - 1)%Z with (-2)%Z by lia. cbn [Z.even]. field.
  - destruct (Z.even (n - k - 1)); field.
Qed.

(** Parseval's identity on the grid, weighted by the first cosine. *)
Lemma weighted_parseval (u : Z -> R) (M N : nat) :
  (M < N)%nat ->
  Rsum (fun j =>
          Rsum (fun n => u n * sin (IZR j * (IZR n * PI / INR N))) M
          * Rsum (fun n => u n * sin (IZR j * (IZR n * PI / INR N))) M
          * cos (IZR j * (IZR 1 * PI / INR N))) N =
  INR N / 4 * Rsum (fun n => Rsum (fun k => u n * u k * adjacent n k) M) M.
Proof.
  intros HMN.
  rewrite (Rsum_ext _ (fun j => Rsum (fun n => Rsum (fun k =>
             u n * u k *
             (sin (IZR j * (IZR n * PI / INR N))
              * sin (IZR j * (IZR k * PI / INR N))
              * cos (IZR j * (IZR 1 * PI / INR N)))) M) M)).
  2:{ intros j _. rewrite Rsum_mult, Rmult_comm, Rsum_scal.
      apply Rsum_ext. intros n _. rewrite Rsum_scal.
      apply Rsum_ext. intros k _. ring. }
  rewrite Rsum_swap, Rsum_scal.
  apply Rsum_ext. intros n Hn.
  rewrite Rsum_swap, Rsum_scal.
  apply Rsum_ext. intros k Hk.
  rewrite <- Rsum_scal, sin_sin_cos_grid by lia. ring.
Qed.

(** A sum that picks one summand, or none. *)
Lemma Rsum_pick (c : Z -> R) (i : Z) (M : nat) :
  Rsum (fun k => if (i =? k)%Z then c k else 0) M =
  if andb (1 <=? i)%Z (i <=? Z.of_nat M)%Z then c i else 0.
Proof.
  destruct (Z.leb_spec 1 i) as [H1 | H1];
  destruct (Z.leb_spec i (Z.of_nat M)) as [H2 | H2]; cbn [andb].
  - apply Rsum_single. lia.
  - rewrite (Rsum_ext _ (fun _ => 0)); [apply Rsum_const_zero |].
    intros k Hk. destruct (Z.eqb_spec i k); [lia | reflexivity].
  - rewrite (Rsum_ext _ (fun _ => 0)); [apply Rsum_const_zero |].
    intros k Hk. destruct (Z.eqb_spec i k); [lia | reflexivity].
  - rewrite (Rsum_ext _ (fun _ => 0)); [apply Rsum_const_zero |].
    intros k Hk. destruct (Z.eqb_spec i k); [lia | reflexivity].
Qed.

(** With no even mode beyond the second, the only adjacent pairs that
    count are (1, 2) and (2, 3). *)
Lemma adjacent_pairs (u : Z -> R) (M : nat) :
  (3 <= M)%nat ->
  (forall n, (4 <= n)%Z -> Z.even n = true -> u n = 0) ->
  Rsum (fun n => Rsum (fun k => u n * u k * adjacent n k) M) M =
  2 * (u 1%Z * u 2%Z + u 2%Z * u 3%Z).
Proof.
  intros HM Hu.
  rewrite (Rsum_ext _
    (fun n => (if (1 =? n)%Z then u 1%Z * u 2%Z else 0)
              + ((if (2 =? n)%Z then u 2%Z * u 1%Z + u 2%Z * u 3%Z else 0)
                 + (if (3 =? n)%Z then u 3%Z * u 2%Z else 0)))).
  - rewrite <- !Rsum_plus.
    rewrite (Rsum_pick (fun _ => u 1%Z * u 2%Z) 1),
            (Rsum_pick (fun _ => u 2%Z * u 1%Z + u 2%Z * u 3%Z) 2),
            (Rsum_pick (fun _ => u 3%Z * u 2%Z) 3).
    destruct (Z.leb_spec 1 (Z.of_nat M)); [| lia].
    destruct (Z.leb_spec 2 (Z.of_nat M)); [| lia].
    destruct (Z.leb_spec 3 (Z.of_nat M)); [| lia].
    cbn. ring.
  - intros n Hn.
    rewrite (Rsum_ext _
      (fun k => (if (n - 1 =? k)%Z then u n * u k else 0)
                + (if (n + 1 =? k)%Z then u n * u k else 0))).
    2:{ intros k _. unfold adjacent.
        destruct (Z.eqb_spec (n - k) 1), (Z.eqb_spec (k - n) 1),
                 (Z.eqb_spec (n - 1) k), (Z.eqb_spec (n + 1) k);
          try lia; ring. }
    rewrite <- Rsum_plus.
    rewrite (Rsum_pick (fun k => u n * u k) (n - 1)),
            (Rsum_pick (fun k => u n * u k) (n + 1)).
    destruct (Z.eqb_spec 1 n) as [E1 | N1].
    { subst n. change (1 - 1)%Z with 0%Z. change (1 + 1)%Z with 2%Z.
      change (1 <=? 0)%Z with false. cbn [andb].
      destruct (Z.leb_spec 2 (Z.of_nat M)); [| lia].
      cbn. ring. }
    destruct (Z.eqb_spec 2 n) as [E2 | N2].
    { subst n. change (2 - 1)%Z with 1%Z. change (2 + 1)%Z with 3%Z.
      destruct (Z.leb_spec 1 (Z.of_nat M)); [| lia].
      destruct (Z.leb_spec 3 (Z.of_nat M)); [| lia].
      cbn. ring. }
    destruct (Z.eqb_spec 3 n) as [E3 | N3].
    { subst n. change (3 - 1)%Z with 2%Z. change (3 + 1)%Z with 4%Z.
      rewrite (Hu 4%Z) by (try lia; reflexivity).
      destruct (Z.leb_spec 2 (Z.of_nat M)); [| lia].
      destruct (andb (1 <=? 4)%Z (4 <=? Z.of_nat M)%Z); cbn; ring. }
    assert (H4 : (4 <= n)%Z) by lia.
    destruct (Z.even n) eqn:He.
    + rewrite (Hu n H4 He).
      destruct (andb (1 <=? n - 1)%Z (n - 1 <=? Z.of_nat M)%Z);
      destruct (andb (1 <=? n + 1)%Z (n + 1 <=? Z.of_nat M)%Z); ring.
    + assert (H5 : (5 <= n)%Z).
      { destruct (Z.eq_dec n 4) as [E4 | N4]; [| lia].
        subst n. discriminate He. }
      assert (Ha : u (n - 1)%Z = 0).
      { apply Hu; [lia |]. rewrite Z.even_sub, He. reflexivity. }
      assert (Hb : u (n + 1)%Z = 0).
      { apply Hu; [lia |]. rewrite Z.even_add, He. reflexivity. }
      rewrite Ha, Hb.
      destruct (andb (1 <=? n - 1)%Z (n - 1 <=? Z.of_nat M)%Z);
      destruct (andb (1 <=? n + 1)%Z (n + 1 <=? Z.of_nat M)%Z); ring.
Qed.

Lemma coef_even (n : Z) : (4 <= n)%Z -> Z.even n = true -> coef n = 0.
Proof.
  intros Hn He. unfold coef.
  destruct (Z.eqb_spec n 2) as [E | _]; [lia |].
  apply Z.even_spec in He. destruct He as [k ->]. apply closed_form_even.
Qed.

Lemma coef_3 : coef 3 = sqrt 2 / PI * (4 / 5).
Proof.
  unfold coef. cbn [Z.eqb Pos.eqb]. rewrite closed_form_single by lra.
  replace (3 * PI / 2) with (3 * (PI / 2)) by field.
  rewrite sin_3PI2. field. generalize PI_RGT_0; lra.
Qed.

(** The first cosine moment of the density over the grid: only the
    pairs of modes (1, 2) and (2, 3) contribute, each with the cosine
    of the difference of their phase angles. *)
Lemma density_moment (t : R) :
  Rsum (fun j =>
          Cabs (psi_sum (0 + INR (Z.to_nat j) * ((a - 0) / INR (1000 - 1))) t) ^ 2
          * cos (IZR j * (IZR 1 * PI / INR 999))) 999 =
  INR 999 / a *
  (coef 2 * (coef 1 * cos (E_n 1 * t / hbar - E_n 2 * t / hbar)
             + coef 3 * cos (E_n 2 * t / hbar - E_n 3 * t / hbar))).
Proof.
  rewrite (Rsum_ext _
    (fun j =>
       Rsum (fun n => coef n * sqrt (2 / a) * cos (E_n n * t / hbar)
                      * sin (IZR j * (IZR n * PI / INR 999))) 50
       * Rsum (fun n => coef n * sqrt (2 / a) * cos (E_n n * t / hbar)
                        * sin (IZR j * (IZR n * PI / INR 999))) 50
       * cos (IZR j * (IZR 1 * PI / INR 999))
       + Rsum (fun n => coef n * sqrt (2 / a) * - sin (E_n n * t / hbar)
                        * sin (IZR j * (IZR n * PI / INR 999))) 50
         * Rsum (fun n => coef n * sqrt (2 / a) * - sin (E_n n * t / hbar)
                          * sin (IZR j * (IZR n * PI / INR 999))) 50
         * cos (IZR j * (IZR 1 * PI / INR 999)))).
  2:{ intros j Hj. rewrite density_grid by lia. ring. }
  rewrite <- Rsum_plus.
  rewrite (weighted_parseval
             (fun n => coef n * sqrt (2 / a) * cos (E_n n * t / hbar)) 50 999)
    by lia.
  rewrite (weighted_parseval
             (fun n => coef n * sqrt (2 / a) * - sin (E_n n * t / hbar)) 50 999)
    by lia.
  rewrite !adjacent_pairs; try lia.
  2:{ intros n Hn He. rewrite coef_even by assumption. ring. }
  2:{ intros n Hn He. rewrite coef_even by assumption. ring. }
  rewrite !cos_minus.
  assert (Hs : sqrt (2 / a) * sqrt (2 / a) = 2 / a).
  { apply sqrt_sqrt. apply Rlt_le, Rdiv_lt_0_compat; [lra | apply a_pos]. }
  set (r := sqrt (2 / a)) in *.
  set (c1 := cos (E_n 1 * t / hbar)). set (s1 := sin (E_n 1 * t / hbar)).
  set (c2 := cos (E_n 2 * t / hbar)). set (s2 := sin (E_n 2 * t / hbar)).
  set (c3 := cos (E_n 3 * t / hbar)). set (s3 := sin (E_n 3 * t / hbar)).
  replace (INR 999 / 4 *
           (2 * (coef 1 * r * c1 * (coef 2 * r * c2)
                 + coef 2 * r * c2 * (coef 3 * r * c3)))
           + INR 999 / 4 *
             (2 * (coef 1 * r * - s1 * (coef 2 * r * - s2)
                   + coef 2 * r * - s2 * (coef 3 * r * - s3))))
    with (INR 999 / 2 * (r * r) *
          (coef 2 * (coef 1 * (c1 * c2 + s1 * s2)
                     + coef 3 * (c2 * c3 + s2 * s3)))) by field.
  rewrite Hs. field. generalize a_pos; lra.
Qed.

Lemma angle_t_max (n : Z) : E_n n * t_max / hbar = 10 * (IZR n * IZR n).
Proof.
  unfold E_n, t_max, tau.
  generalize m_pos a_pos hbar_pos PI_RGT_0; intros Hm Ha Hh HP.
  field. repeat split; lra.
Qed.

(** [cos 30 <= 0.155]: thirty radians are nine and a half half-turns
    and some [0.1549]. *)
Lemma cos_30_upper : cos 30 <= 0.155.
Proof.
  assert (HP := PI_bounds).
  rewrite <- (cos_period_Z 30 (-5)).
  rewrite <- cos_neg.
  rewrite <- sin_shift.
  replace (PI / 2 - - (30 + 2 * -5 * PI)) with (30 - 19 / 2 * PI) by field.
  assert (Hr : 0 <= 30 - 19 / 2 * PI) by lra.
  generalize (sin_bounds_nonneg _ Hr). lra.
Qed.

Lemma Rsum_const (c : R) (N : nat) : Rsum (fun _ => c) N = INR N * c.
Proof.
  induction N as [| N IH]; [cbn; ring |].
  cbn [Rsum]. rewrite IH, S_INR. ring.
Qed.

Lemma Forall2_map_same {A B : Type} (P : B -> B -> Prop) (f g : A -> B)
      (l : list A) :
  Forall2 P (map f l) (map g l) -> forall i, In i l -> P (f i) (g i).
Proof.
  induction l as [| v l IH]; cbn [map]; intros H i Hi; [destruct Hi |].
  inversion H; subst. destruct Hi as [<- | Hi]; [assumption |].
  apply IH; assumption.
Qed.

(** The moment at time 0 exceeds the moment at [t_max] by more than
    [999 * 3 / (10 a)]. *)
Lemma moment_gap :
  INR 999 * (3 / (10 * a)) <
  INR 999 / a *
  (coef 2 * (coef 1 * cos (E_n 1 * 0 / hbar - E_n 2 * 0 / hbar)
             + coef 3 * cos (E_n 2 * 0 / hbar - E_n 3 * 0 / hbar)))
  - INR 999 / a *
    (coef 2 * (coef 1 * cos (E_n 1 * t_max / hbar - E_n 2 * t_max / hbar)
               + coef 3 * cos (E_n 2 * t_max / hbar - E_n 3 * t_max / hbar))).
Proof.
  rewrite !angle_t_max.
  replace (E_n 1 * 0 / hbar - E_n 2 * 0 / hbar) with 0 by (unfold Rdiv; ring).
  replace (E_n 2 * 0 / hbar - E_n 3 * 0 / hbar) with 0 by (unfold Rdiv; ring).
  rewrite cos_0.
  replace (10 * (1 * 1) - 10 * (2 * 2)) with (Ropp 30) by ring.
  rewrite cos_neg.
  assert (H30 := cos_30_upper).
  assert (H50 := COS_bound (10 * (2 * 2) - 10 * (3 * 3))).
  rewrite coef_1, coef_3. change (coef 2) with (sqrt 2 / 2).
  set (c30 := cos 30) in *. set (c50 := cos (10 * (2 * 2) - 10 * (3 * 3))) in *.
  assert (HP := PI_bounds). assert (Ha := a_pos).
  assert (H999 : 0 < INR 999) by (apply lt_0_INR; lia).
  replace (INR 999 / a * (sqrt 2 / 2 * (sqrt 2 / PI * (4 / 3) * 1 + sqrt 2 / PI * (4 / 5) * 1))
           - INR 999 / a * (sqrt 2 / 2 * (sqrt 2 / PI * (4 / 3) * c30
                                          + sqrt 2 / PI * (4 / 5) * c50)))
    with (INR 999 / a * ((sqrt 2 * sqrt 2) / (2 * PI)
                         * (4 / 3 * (1 - c30) + 4 / 5 * (1 - c50))))
    by (field; lra).
  rewrite sqrt2_sq.
  replace (INR 999 * (3 / (10 * a))) with (INR 999 / a * (3 / 10)) by (field; lra).
  apply Rmult_lt_compat_l; [apply Rdiv_lt_0_compat; lra |].
  assert (Hq : 2 / (2 * 3.1416) < 2 / (2 * PI)).
  { apply Rmult_lt_compat_l; [lra |]. apply Rinv_lt_contravar; nra. }
  assert (Hq0 : 0 < 2 / (2 * PI)) by (apply Rdiv_lt_0_compat; lra).
  assert (Hb : 4 / 3 * (845 / 1000) <= 4 / 3 * (1 - c30) + 4 / 5 * (1 - c50)) by lra.
  assert (Hv : 3 / 10 < 2 / (2 * 3.1416) * (4 / 3 * (845 / 1000))) by lra.
  nra.
Qed.

(** Two density curves over the grid that stay within [d] of each other
    have first cosine moments within [999 d]. *)
Lemma moment_close (t t' d : R) :
  Forall2 (fun y y' => Rabs (y' - y) <= d)
          (abs_sq (map (fun xi => psi_sum xi t) x))
          (abs_sq (map (fun xi => psi_sum xi t') x)) ->
  Rsum (fun j =>
          Cabs (psi_sum (0 + INR (Z.to_nat j) * ((a - 0) / INR (1000 - 1))) t) ^ 2
          * cos (IZR j * (IZR 1 * PI / INR 999))) 999
  - Rsum (fun j =>
            Cabs (psi_sum (0 + INR (Z.to_nat j) * ((a - 0) / INR (1000 - 1))) t') ^ 2
            * cos (IZR j * (IZR 1 * PI / INR 999))) 999
  <= INR 999 * d.
Proof.
  intros Hall. unfold abs_sq, x, linspace in Hall. rewrite !map_map in Hall.
  assert (Hpt := Forall2_map_same _ _ _ _ Hall). cbv beta in Hpt.
  rewrite Rsum_minus, <- Rsum_const.
  apply Rsum_le. intros j Hj.
  specialize (Hpt (Z.to_nat j)).
  assert (Hin : In (Z.to_nat j) (seq 0 1000)) by (apply in_seq; lia).
  specialize (Hpt Hin).
  set (y := Cabs (psi_sum _ t) ^ 2) in *. set (y' := Cabs (psi_sum _ t') ^ 2) in *.
  assert (Hc := COS_bound (IZR j * (IZR 1 * PI / INR 999))).
  set (c := cos _) in *.
  apply Rabs_le_inv in Hpt.
  assert (Hd : 0 <= d) by lra.
  nra.
Qed.

(** C5, as stated: with [t_max = 10 tau] as the script sets it, the
    density at [t_max] would closely match the density at time 0 at
    every grid point, [t_max] being a whole number of fundamental
    periods.  Neither holds: [t_max] is no integer multiple of
    [2 pi tau], and the two density curves are not within [3 / (10 a)]
    (that is [3e9], against a peak of some [4e10]) of each other over
    the grid. *)
Lemma density_at_t_max_differs :
  (forall k : Z, t_max <> IZR k * fundamental_period) /\
  exists zs0 zsT,
    psi x 0 = Some zs0 /\ psi x t_max = Some zsT /\
    ~ Forall2 (fun y0 yT => Rabs (yT - y0) <= 3 / (10 * a))
              (abs_sq zs0) (abs_sq zsT).
Proof.
  split; [apply t_max_not_multiple |].
  exists (map (fun xi => psi_sum xi 0) x), (map (fun xi => psi_sum xi t_max) x).
  rewrite !psi_eval. split; [reflexivity |]. split; [reflexivity |].
  intros Hall. apply moment_close in Hall.
  rewrite !density_moment in Hall.
  generalize moment_gap. lra.
Qed.

End Recurrence.
